(** * dgraph: bulk loader pipeline and ACL cache

    A shallow embedding of [cmd/bulkloader/loader.go] (the staged
    map / shuffle / reduce orchestration) and of the enterprise ACL cache
    ([aclCache.update], [authorizePredicate], [hasRequiredAccess]).

    Conventions.
    - Go's [int32] and [int] are [Z]; [&] is [Z.land].
    - Go's [string] is [string]; [map[string]T] is [gmap string T].
    - Go's [error] is [option string]: [None] is [nil].
    - Goroutines share one explicit state. Each goroutine has a step
      function ([None] when it is blocked or has ended); a schedule is the
      list of the goroutines that move, one after the other. A statement
      about every schedule is a statement about every reachable state.
    - A [sync.WaitGroup] is read off the state: [Wait] goes on when every
      goroutine that was added has called [Done].
    - [x.Check] and [x.Checkf] on a non-nil error end the process, as does
      a panic that no goroutine recovers. *)

From Stdlib Require Import ZArith Lia List Permutation.
From stdpp Require Import base tactics option list gmap fin_maps strings.

Open Scope string_scope.
Open Scope list_scope.
Open Scope nat_scope.

(** Go's [error] interface value: [nil] or a message. *)
Definition error : Type := option string.
Definition nil_error : error := None.
Definition errors_Errorf (msg : string) : error := Some msg.

(* ===================================================================== *)
(** * The ACL cache *)
(* ===================================================================== *)

Module Acl.

(** [acl.Group], [acl.Acl] and [acl.Operation] as the cache uses them. *)
Record Group := { GroupID : string; Acls : string }.
Record AclEntry := { Predicate : string; Regex : string; Perm : Z }.
Record Operation := { Code : Z; Name : string }.

(** [sync.RWMutex]: free, held by the writer, or held by [n+1] readers. *)
Inductive RWMutex := Unlocked | WLocked | RLocked (n : nat).

#[export] Instance RWMutex_eq_dec : EqDecision RWMutex.
Proof. solve_decision. Defined.

Definition Lock (mu : RWMutex) : option RWMutex :=
  match mu with Unlocked => Some WLocked | _ => None end.
Definition Unlock (mu : RWMutex) : option RWMutex :=
  match mu with WLocked => Some Unlocked | _ => None end.
Definition RLock (mu : RWMutex) : option RWMutex :=
  match mu with
  | Unlocked => Some (RLocked 0)
  | RLocked n => Some (RLocked (S n))
  | WLocked => None
  end.
Definition RUnlock (mu : RWMutex) : option RWMutex :=
  match mu with
  | RLocked 0 => Some Unlocked
  | RLocked (S n) => Some (RLocked n)
  | _ => None
  end.

(** A small concrete instance of the collaborators, to run the definitions
    on: a pattern is a prefix to look for, ["("] does not compile, two blobs
    unmarshal, and one predicate is reserved. *)
Definition demo_Compile (s : string) : option string :=
  if String.eqb s "(" then None else Some s.
Definition demo_Match (re s : string) : bool := String.prefix re s.
Definition demo_Unmarshal (blob : string) : option (list AclEntry) :=
  if String.eqb blob "dev-blob" then
    Some [ {| Predicate := "friend"; Regex := ""; Perm := 4 |};
           {| Predicate := ""; Regex := "("; Perm := 7 |};
           {| Predicate := ""; Regex := "user."; Perm := 4 |} ]
  else if String.eqb blob "sre-blob" then
    Some [ {| Predicate := "friend"; Regex := ""; Perm := 6 |} ]
  else None.
Definition demo_IsAclPredicate (s : string) : bool :=
  String.eqb s "dgraph.group.acl".
Definition demo_groups : list Group :=
  [ {| GroupID := "dev"; Acls := "dev-blob" |};
    {| GroupID := "ops"; Acls := "{not json" |};
    {| GroupID := "sre"; Acls := "sre-blob" |} ].
Definition demo_read : Operation := {| Code := 4; Name := "Read" |}.
Definition demo_modify : Operation := {| Code := 1; Name := "Modify" |}.

Section Cache.

(** The collaborators of the cache that live outside this file:
    [regexp.Compile] and [Regexp.MatchString], [json.Unmarshal] into
    [[]acl.Acl], [x.IsAclPredicate], and the order in which the Go runtime
    ranges over a map. *)
Variable Regexp : Type.
Variable regexp_Compile : string → option Regexp.
Variable MatchString : Regexp → string → bool.
Variable json_Unmarshal : string → option (list AclEntry).
Variable IsAclPredicate : string → bool.

Record predRegexRule := {
  predRegex : Regexp;
  groupPerms : gmap string Z
}.

Variable range_order : gmap string predRegexRule → list predRegexRule.
Hypothesis range_order_perm :
  ∀ m, range_order m ≡ₚ (map_to_list m).*2.

Record aclCache := {
  mu : RWMutex;
  predPerms : gmap string (gmap string Z);
  predRegexRules : list predRegexRule
}.

(** [aclCachePtr] as the package initialises it. Both methods below work
    on this package-level cache, whatever their receiver: the [cache]
    argument of the definitions is the state of [aclCachePtr]. The inner
    maps of a published cache are never written again ([update] fills
    fresh maps and then swaps them in), so a snapshot is a value. *)
Definition aclCachePtr0 : aclCache :=
  {| mu := Unlocked; predPerms := ∅; predRegexRules := [] |}.

(** ** [hasRequiredAccess] *)

Fixpoint hasRequiredAccess (gp : gmap string Z) (groups : list string)
    (operation : Operation) : bool :=
  match groups with
  | [] => false
  | group :: rest =>
      match gp !! group with
      | Some groupPerm =>
          if negb (Z.land groupPerm (Code operation) =? 0)%Z then true
          else hasRequiredAccess gp rest operation
      | None => hasRequiredAccess gp rest operation
      end
  end.

(** ** [authorizePredicate] *)

(** The loop over [predRegexRules]: [None] when the loop returned [nil]
    from inside, [Some m] when it fell through with [predRegexMatch = m]. *)
Fixpoint regexLoop (rules : list predRegexRule) (groups : list string)
    (predicate : string) (operation : Operation) (predRegexMatch : bool)
    : option bool :=
  match rules with
  | [] => Some predRegexMatch
  | rule :: rest =>
      if MatchString (predRegex rule) predicate then
        if hasRequiredAccess (groupPerms rule) groups operation then None
        else regexLoop rest groups predicate operation true
      else regexLoop rest groups predicate operation predRegexMatch
  end.

(** Lines 123 to 125: the two fields, read under the read lock; [None]
    while a writer holds the lock (the call blocks). The lock is left as
    it was found. *)
Definition snapshot (cache : aclCache)
    : option (gmap string (gmap string Z) * list predRegexRule) :=
  mu1 ← RLock (mu cache);
  let snap := (predPerms cache, predRegexRules cache) in
  _ ← RUnlock mu1;
  Some snap.

(** [None] when the call blocks, [Some err] when it returns [err]. *)
Definition authorizePredicate (cache : aclCache) (groups : list string)
    (predicate : string) (operation : Operation) : option error :=
  if IsAclPredicate predicate then
    Some (errors_Errorf
            ("only groot is allowed to access the ACL predicate: " +:+ predicate))
  else
    '(pp, rules) ← snapshot cache;
    let '(singlePredMatch, allowed) :=
      match pp !! predicate with
      | Some gp => (true, hasRequiredAccess gp groups operation)
      | None => (false, false)
      end in
    if allowed then Some nil_error
    else
      match regexLoop rules groups predicate operation false with
      | None => Some nil_error
      | Some predRegexMatch =>
          if singlePredMatch || predRegexMatch then
            Some (errors_Errorf ("unauthorized to do " +:+ Name operation +:+
                                 " on predicate " +:+ predicate))
          else Some nil_error
      end.

(** The call returns an error. *)
Definition denies (r : option error) : Prop := ∃ msg, r = Some (Some msg).

(** ** [update] *)

(** The two maps [update] builds before it touches the cache. *)
Definition building : Type :=
  gmap string (gmap string Z) * gmap string predRegexRule.

(** One iteration of [for _, acl := range acls]. *)
Definition addAcl (gid : string) (a : AclEntry) (st : building) : building :=
  let '(pp, rp) := st in
  if (0 <? String.length (Predicate a))%nat then
    match pp !! Predicate a with
    | Some gp => (<[Predicate a := <[gid := Perm a]> gp]> pp, rp)
    | None => (<[Predicate a := <[gid := Perm a]> ∅]> pp, rp)
    end
  else if (0 <? String.length (Regex a))%nat then
    match rp !! Regex a with
    | Some rule =>
        (pp, <[Regex a := {| predRegex := predRegex rule;
                             groupPerms := <[gid := Perm a]> (groupPerms rule) |}]> rp)
    | None =>
        match regexp_Compile (Regex a) with
        | None => (pp, rp)
        | Some re =>
            (pp, <[Regex a := {| predRegex := re;
                                 groupPerms := <[gid := Perm a]> ∅ |}]> rp)
        end
    end
  else (pp, rp).

Definition addAcls (gid : string) (acls : list AclEntry) (st : building)
    : building :=
  fold_left (λ st a, addAcl gid a st) acls st.

(** One iteration of [for _, group := range groups]. *)
Definition addGroup (g : Group) (st : building) : building :=
  match json_Unmarshal (Acls g) with
  | None => st
  | Some acls => addAcls (GroupID g) acls st
  end.

Definition buildMaps (groups : list Group) : building :=
  fold_left (λ st g, addGroup g st) groups (∅, ∅).

(** [update]: build, take the write lock, replace both fields, unlock.
    [None] when the write lock is not free (the call blocks). *)
Definition update (groups : list Group) (cache : aclCache) : option aclCache :=
  let '(pp, rp) := buildMaps groups in
  let rules := range_order rp in
  mu1 ← Lock (mu cache);
  let c1 := {| mu := mu1; predPerms := predPerms cache;
               predRegexRules := predRegexRules cache |} in
  let c2 := {| mu := mu c1; predPerms := pp;
               predRegexRules := predRegexRules c1 |} in
  let c3 := {| mu := mu c2; predPerms := predPerms c2;
               predRegexRules := rules |} in
  mu2 ← Unlock (mu c3);
  Some {| mu := mu2; predPerms := predPerms c3;
          predRegexRules := predRegexRules c3 |}.

(** ** What the rules of a cache say *)

(** Some group of the caller holds a permission with a bit of the
    operation's code. *)
Definition grants (gp : gmap string Z) (groups : list string)
    (operation : Operation) : Prop :=
  ∃ g p, g ∈ groups ∧ gp !! g = Some p ∧ Z.land p (Code operation) ≠ 0%Z.

Definition exact_rule_matches (cache : aclCache) (predicate : string) : Prop :=
  is_Some (predPerms cache !! predicate).

Definition regex_rule_matches (cache : aclCache) (predicate : string) : Prop :=
  ∃ r, r ∈ predRegexRules cache ∧ MatchString (predRegex r) predicate = true.

Definition matching_rule_grants (cache : aclCache) (groups : list string)
    (predicate : string) (operation : Operation) : Prop :=
  (∃ gp, predPerms cache !! predicate = Some gp ∧ grants gp groups operation)
  ∨ (∃ r, r ∈ predRegexRules cache ∧
          MatchString (predRegex r) predicate = true ∧
          grants (groupPerms r) groups operation).

(** A group of [groups] whose blob unmarshals and lists the entry [a]. *)
Definition lists_entry (groups : list Group) (gid : string) (a : AclEntry)
    : Prop :=
  ∃ g acls, g ∈ groups ∧ GroupID g = gid ∧
            json_Unmarshal (Acls g) = Some acls ∧ a ∈ acls.

(** Where the content of the maps under construction comes from: [src gid a]
    says that group [gid] lists the entry [a]. *)
Definition built_from (src : string → AclEntry → Prop) (st : building) : Prop :=
  (∀ p gp, st.1 !! p = Some gp →
     p ≠ "" ∧ (∃ gid a, src gid a ∧ Predicate a = p) ∧
     ∀ gid perm, gp !! gid = Some perm →
       ∃ a, src gid a ∧ Predicate a = p ∧ Perm a = perm)
  ∧ (∀ k rule, st.2 !! k = Some rule →
     k ≠ "" ∧ regexp_Compile k = Some (predRegex rule) ∧
     (∃ gid a, src gid a ∧ Predicate a = "" ∧ Regex a = k) ∧
     ∀ gid perm, groupPerms rule !! gid = Some perm →
       ∃ a, src gid a ∧ Predicate a = "" ∧ Regex a = k ∧ Perm a = perm).

(** ** Lemmas on [hasRequiredAccess] and the regex loop *)

Lemma hasRequiredAccess_grants gp groups operation :
  hasRequiredAccess gp groups operation = true ↔ grants gp groups operation.
Proof.
  unfold grants. induction groups as [|g rest IH]; simpl.
  - split; [discriminate|]. intros (g & p & Hin & _). inversion Hin.
  - destruct (gp !! g) as [p|] eqn:Hg.
    + destruct (Z.eqb_spec (Z.land p (Code operation)) 0) as [Hz|Hz]; simpl.
      * rewrite IH. split.
        -- intros (g' & p' & Hin & Hl & Hne). exists g', p'.
           split; [by apply list_elem_of_further|done].
        -- intros (g' & p' & Hin & Hl & Hne).
           apply elem_of_cons in Hin as [->|Hin]; [|by eauto].
           rewrite Hg in Hl. by simplify_eq.
      * split; [|done]. intros _. exists g, p.
        split; [apply list_elem_of_here|done].
    + rewrite IH. split.
      * intros (g' & p' & Hin & Hl & Hne). exists g', p'.
        split; [by apply list_elem_of_further|done].
      * intros (g' & p' & Hin & Hl & Hne).
        apply elem_of_cons in Hin as [->|Hin]; [|by eauto].
        rewrite Hg in Hl. discriminate.
Qed.

Lemma regexLoop_returns rules groups predicate operation m :
  regexLoop rules groups predicate operation m = None ↔
  ∃ r, r ∈ rules ∧ MatchString (predRegex r) predicate = true ∧
       grants (groupPerms r) groups operation.
Proof.
  revert m. induction rules as [|r rest IH]; intros m; simpl.
  - split; [discriminate|]. intros (r & Hin & _). inversion Hin.
  - destruct (MatchString (predRegex r) predicate) eqn:Hm.
    + destruct (hasRequiredAccess (groupPerms r) groups operation) eqn:Ha.
      * split; [|done]. intros _. exists r.
        split; [apply list_elem_of_here|].
        split; [done|]. by apply hasRequiredAccess_grants.
      * rewrite IH. split.
        -- intros (r' & Hin & H). exists r'.
           split; [by apply list_elem_of_further|done].
        -- intros (r' & Hin & Hm' & Hg).
           apply elem_of_cons in Hin as [->|Hin]; [|by eauto].
           apply hasRequiredAccess_grants in Hg. congruence.
    + rewrite IH. split.
      * intros (r' & Hin & H). exists r'.
        split; [by apply list_elem_of_further|done].
      * intros (r' & Hin & Hm' & Hg).
        apply elem_of_cons in Hin as [->|Hin]; [|by eauto]. congruence.
Qed.

Lemma regexLoop_falls_through rules groups predicate operation m m' :
  regexLoop rules groups predicate operation m = Some m' →
  m' = true ↔
  (m = true ∨ ∃ r, r ∈ rules ∧ MatchString (predRegex r) predicate = true).
Proof.
  revert m. induction rules as [|r rest IH]; intros m; simpl.
  - intros [= ->]. split; [by left|]. intros [?|(r & Hin & _)]; [done|].
    inversion Hin.
  - destruct (MatchString (predRegex r) predicate) eqn:Hm.
    + destruct (hasRequiredAccess (groupPerms r) groups operation);
        [discriminate|].
      intros H. apply IH in H. rewrite H. split.
      * intros _. right. exists r. split; [apply list_elem_of_here|done].
      * intros _. by left.
    + intros H. apply IH in H. rewrite H. split.
      * intros [?|(r' & Hin & Hm')]; [by left|]. right. exists r'.
        split; [by apply list_elem_of_further|done].
      * intros [?|(r' & Hin & Hm')]; [by left|].
        apply elem_of_cons in Hin as [->|Hin]; [congruence|]. right; eauto.
Qed.

Lemma snapshot_unlocked cache :
  mu cache ≠ WLocked →
  snapshot cache = Some (predPerms cache, predRegexRules cache).
Proof. unfold snapshot. by destruct (mu cache) as [| |[|n]]. Qed.

Lemma snapshot_Some cache pp rules :
  snapshot cache = Some (pp, rules) →
  pp = predPerms cache ∧ rules = predRegexRules cache.
Proof.
  unfold snapshot. destruct (mu cache) as [| |[|n]]; simpl; try done.
  all: by intros [= <- <-].
Qed.

(** The whole of [authorizePredicate] on a predicate that is not reserved,
    with no writer holding the lock: it returns, and it returns an error
    exactly when a rule matches and no matching rule grants. *)
Lemma authorizePredicate_denies_iff cache groups predicate operation :
  IsAclPredicate predicate = false → mu cache ≠ WLocked →
  is_Some (authorizePredicate cache groups predicate operation) ∧
  (denies (authorizePredicate cache groups predicate operation) ↔
   (exact_rule_matches cache predicate ∨ regex_rule_matches cache predicate)
   ∧ ¬ matching_rule_grants cache groups predicate operation).
Proof.
  intros Hacl Hmu. unfold authorizePredicate, exact_rule_matches,
    regex_rule_matches, matching_rule_grants, denies.
  rewrite Hacl, (snapshot_unlocked _ Hmu). simpl.
  destruct (predPerms cache !! predicate) as [gp|] eqn:Hpp.
  - destruct (hasRequiredAccess gp groups operation) eqn:Ha.
    + apply hasRequiredAccess_grants in Ha. split; [by eexists|]. split.
      * intros [? H]. discriminate H.
      * intros [_ Hn]. exfalso. apply Hn. left. eauto.
    + destruct (regexLoop _ _ _ _ _) as [m'|] eqn:Hl; simpl.
      * split; [by eexists|].
        split; [|by eauto]. intros _. split; [left; by eauto|].
        intros [(gp' & [= <-] & Hg)|Hr].
        -- apply hasRequiredAccess_grants in Hg. congruence.
        -- apply regexLoop_returns with (m := false) in Hr. congruence.
      * apply regexLoop_returns in Hl. split; [by eexists|]. split.
        -- intros [? H]. discriminate H.
        -- intros [_ Hn]. exfalso. apply Hn. by right.
  - destruct (regexLoop _ _ _ _ _) as [m'|] eqn:Hl; simpl.
    + pose proof (regexLoop_falls_through _ _ _ _ _ _ Hl) as Hm.
      destruct m'; simpl.
      * split; [by eexists|].
        split; [|by eauto]. intros _. split.
        -- right. destruct Hm as [Hm _].
           destruct (Hm eq_refl) as [?|?]; [discriminate|done].
        -- intros [(gp' & H & _)|Hr]; [discriminate|].
           apply regexLoop_returns with (m := false) in Hr. congruence.
      * split; [by eexists|].
        split; [intros [? H]; discriminate H|].
        intros [[[? H]|Hr] _]; [discriminate|].
        destruct Hm as [_ Hm]. by specialize (Hm (or_intror Hr)).
    + apply regexLoop_returns in Hl. split; [by eexists|]. split.
      * intros [? H]. discriminate H.
      * intros [_ Hn]. exfalso. apply Hn. by right.
Qed.

Lemma authorizePredicate_blocked cache groups predicate operation :
  IsAclPredicate predicate = false → mu cache = WLocked →
  authorizePredicate cache groups predicate operation = None.
Proof.
  intros Hacl Hmu. unfold authorizePredicate, snapshot. by rewrite Hacl, Hmu.
Qed.

(** C9. [authorizePredicate] refuses every ACL-reserved predicate whatever
    the caller's groups (and whatever the cache holds); on any other
    predicate it returns [nil] when no exact rule and no regex rule matches
    (fail open), and it returns an error only when some rule matches the
    predicate and no matching rule grants the operation to one of the
    caller's groups. *)
Theorem authorizePredicate_fail_open cache groups predicate operation :
  (IsAclPredicate predicate = true →
     denies (authorizePredicate cache groups predicate operation)) ∧
  (IsAclPredicate predicate = false → mu cache ≠ WLocked →
     ¬ exact_rule_matches cache predicate →
     ¬ regex_rule_matches cache predicate →
     authorizePredicate cache groups predicate operation = Some nil_error) ∧
  (IsAclPredicate predicate = false →
     denies (authorizePredicate cache groups predicate operation) →
     (exact_rule_matches cache predicate ∨ regex_rule_matches cache predicate)
     ∧ ¬ matching_rule_grants cache groups predicate operation).
Proof.
  split; [|split].
  - intros Hacl. unfold authorizePredicate. rewrite Hacl. by eexists.
  - intros Hacl Hmu Hne Hnr.
    destruct (authorizePredicate_denies_iff cache groups predicate operation
                Hacl Hmu) as [[[msg|] Hr] Hiff]; [|done].
    assert (Hd : denies (authorizePredicate cache groups predicate operation))
      by (by exists msg).
    apply Hiff in Hd as [[?|?] _]; done.
  - intros Hacl Hd.
    destruct (decide (mu cache = WLocked)) as [Hmu|Hmu].
    + rewrite (authorizePredicate_blocked _ _ _ _ Hacl Hmu) in Hd.
      by destruct Hd.
    + by apply authorizePredicate_denies_iff in Hd.
Qed.

(** ** Lemmas on [update] *)

Lemma nonempty_string (s : string) :
  (0 <? String.length s)%nat = true ↔ s ≠ "".
Proof.
  destruct s; simpl; split; done.
Qed.

Lemma built_from_mono (src src' : string → AclEntry → Prop) st :
  (∀ gid a, src gid a → src' gid a) → built_from src st → built_from src' st.
Proof.
  intros Hsub [Hp Hr]. split.
  - intros p gp Hl. destruct (Hp p gp Hl) as (? & (gid & a & ? & ?) & Hperm).
    split; [done|]. split; [by eauto|].
    intros gid' perm Hg. destruct (Hperm gid' perm Hg) as (a' & ? & ?). eauto.
  - intros k rule Hl.
    destruct (Hr k rule Hl) as (? & ? & (gid & a & ? & ?) & Hperm).
    split; [done|]. split; [done|]. split; [by eauto|].
    intros gid' perm Hg. destruct (Hperm gid' perm Hg) as (a' & ? & ?). eauto.
Qed.

Lemma built_from_empty src : built_from src (∅, ∅).
Proof. split; intros ?? H; simpl in H; by rewrite lookup_empty in H. Qed.

Lemma addAcl_built_from src gid a st :
  src gid a → built_from src st → built_from src (addAcl gid a st).
Proof.
  intros Hsrc [Hp Hr]. destruct st as [pp rp]. unfold addAcl. simpl in *.
  destruct (0 <? String.length (Predicate a))%nat eqn:HP.
  - apply nonempty_string in HP.
    assert (Hins : ∀ gp0 : gmap string Z,
      (∀ gid' perm, gp0 !! gid' = Some perm →
         ∃ a', src gid' a' ∧ Predicate a' = Predicate a ∧ Perm a' = perm) →
      built_from src (<[Predicate a := <[gid := Perm a]> gp0]> pp, rp)).
    { intros gp0 H0. split; simpl; [|done]. intros p gp Hl.
      destruct (decide (Predicate a = p)) as [<-|Hne].
      - rewrite lookup_insert_eq in Hl. injection Hl as <-.
        split; [done|]. split; [by eauto|]. intros gid' perm Hg.
        destruct (decide (gid = gid')) as [<-|Hne'].
        + rewrite lookup_insert_eq in Hg. injection Hg as <-. eauto.
        + rewrite lookup_insert_ne in Hg by done. eauto.
      - rewrite lookup_insert_ne in Hl by done. eauto. }
    destruct (pp !! Predicate a) as [gp|] eqn:Hl.
    + apply Hins. intros gid' perm Hg. by apply (Hp _ _ Hl).
    + apply Hins. intros gid' perm Hg. by rewrite lookup_empty in Hg.
  - assert (HP' : Predicate a = "").
    { destruct (Predicate a); [done|]. simpl in HP. discriminate. }
    destruct (0 <? String.length (Regex a))%nat eqn:HR; [|done].
    apply nonempty_string in HR.
    assert (Hins : ∀ re (gp0 : gmap string Z),
      regexp_Compile (Regex a) = Some re →
      (∀ gid' perm, gp0 !! gid' = Some perm →
         ∃ a', src gid' a' ∧ Predicate a' = "" ∧ Regex a' = Regex a ∧
               Perm a' = perm) →
      built_from src
        (pp, <[Regex a := {| predRegex := re;
                             groupPerms := <[gid := Perm a]> gp0 |}]> rp)).
    { intros re gp0 Hc H0. split; simpl; [done|]. intros k rule Hl.
      destruct (decide (Regex a = k)) as [<-|Hne].
      - rewrite lookup_insert_eq in Hl. injection Hl as <-. simpl.
        split; [done|]. split; [done|]. split; [by eauto|].
        intros gid' perm Hg.
        destruct (decide (gid = gid')) as [<-|Hne'].
        + rewrite lookup_insert_eq in Hg. injection Hg as <-. eauto.
        + rewrite lookup_insert_ne in Hg by done. eauto.
      - rewrite lookup_insert_ne in Hl by done. eauto. }
    destruct (rp !! Regex a) as [rule|] eqn:Hl.
    + destruct (Hr _ _ Hl) as (_ & Hc & _ & Hperm). by apply Hins.
    + destruct (regexp_Compile (Regex a)) as [re|] eqn:Hc; [|done].
      apply Hins; [done|]. intros gid' perm Hg. by rewrite lookup_empty in Hg.
Qed.

Lemma addAcls_built_from src gid acls st :
  (∀ a, a ∈ acls → src gid a) → built_from src st →
  built_from src (addAcls gid acls st).
Proof.
  unfold addAcls. revert st. induction acls as [|a acls IH]; intros st Hin Hb.
  - done.
  - simpl. apply IH.
    + intros a' Ha'. apply Hin. by apply list_elem_of_further.
    + apply addAcl_built_from; [|done]. apply Hin, list_elem_of_here.
Qed.

Lemma buildMaps_snoc groups g :
  buildMaps (groups ++ [g]) = addGroup g (buildMaps groups).
Proof. unfold buildMaps. by rewrite fold_left_app. Qed.

Lemma buildMaps_built_from groups :
  built_from (lists_entry groups) (buildMaps groups).
Proof.
  induction groups as [|g groups IH] using rev_ind.
  - apply built_from_empty.
  - rewrite buildMaps_snoc.
    assert (Hmono : built_from (lists_entry (groups ++ [g])) (buildMaps groups)).
    { eapply built_from_mono; [|exact IH].
      intros gid a (g0 & acls & Hin & ?). exists g0, acls.
      split; [|done]. apply elem_of_app. by left. }
    unfold addGroup. destruct (json_Unmarshal (Acls g)) as [acls|] eqn:Hu;
      [|done].
    apply addAcls_built_from; [|done]. intros a Ha. exists g, acls.
    split; [|done]. apply elem_of_app. right. apply list_elem_of_here.
Qed.

(** A group whose blob does not unmarshal leaves the maps as they are. *)
Lemma addGroup_skips_blob g st :
  json_Unmarshal (Acls g) = None → addGroup g st = st.
Proof. intros H. unfold addGroup. by rewrite H. Qed.

(** A regex entry whose pattern does not compile leaves the maps as they
    are (no earlier entry can have registered the same pattern). *)
Lemma addAcl_skips_regex src gid a st :
  built_from src st → Predicate a = "" → regexp_Compile (Regex a) = None →
  addAcl gid a st = st.
Proof.
  intros [_ Hr] HP Hc. destruct st as [pp rp]. unfold addAcl. rewrite HP.
  simpl. destruct (0 <? String.length (Regex a))%nat; [|done].
  destruct (rp !! Regex a) as [rule|] eqn:Hl.
  - destruct (Hr _ _ Hl) as (_ & Hc' & _). congruence.
  - by rewrite Hc.
Qed.

Lemma buildMaps_split gs1 g gs2 :
  buildMaps (gs1 ++ g :: gs2) =
  fold_left (λ st g, addGroup g st) gs2 (addGroup g (buildMaps gs1)).
Proof. unfold buildMaps. by rewrite fold_left_app. Qed.

Lemma buildMaps_drop_blob gs1 g gs2 :
  json_Unmarshal (Acls g) = None →
  buildMaps (gs1 ++ g :: gs2) = buildMaps (gs1 ++ gs2).
Proof.
  intros H. rewrite buildMaps_split, addGroup_skips_blob by done.
  unfold buildMaps. by rewrite fold_left_app.
Qed.

Lemma buildMaps_drop_regex gs1 g g' gs2 as1 a as2 :
  json_Unmarshal (Acls g) = Some (as1 ++ a :: as2) →
  json_Unmarshal (Acls g') = Some (as1 ++ as2) →
  GroupID g' = GroupID g →
  Predicate a = "" → regexp_Compile (Regex a) = None →
  buildMaps (gs1 ++ g :: gs2) = buildMaps (gs1 ++ g' :: gs2).
Proof.
  intros Hu Hu' Hid HP Hc. rewrite !buildMaps_split. f_equal.
  unfold addGroup. rewrite Hu, Hu', Hid. unfold addAcls.
  rewrite !fold_left_app. simpl. f_equal.
  apply (addAcl_skips_regex (λ _ _, True)); [|done..].
  apply addAcls_built_from; [done|].
  eapply built_from_mono; [|apply buildMaps_built_from]. done.
Qed.

Lemma update_unlocked groups cache :
  mu cache = Unlocked →
  update groups cache =
    Some {| mu := Unlocked; predPerms := (buildMaps groups).1;
            predRegexRules := range_order (buildMaps groups).2 |}.
Proof.
  intros Hmu. unfold update. destruct (buildMaps groups) as [pp rp].
  rewrite Hmu. reflexivity.
Qed.

(** C10. [update] skips a group whose ACL blob does not unmarshal and a
    regex entry whose pattern does not compile, and goes on with the rest;
    then, holding the write lock, it replaces the predicate map and the
    regex rule list by what it built from [groups] alone: the result does
    not depend on the previous content of the cache, and every rule and
    every permission in it comes from an entry listed by [groups]. *)
Theorem update_replaces_wholesale groups cache :
  (mu cache ≠ Unlocked → update groups cache = None) ∧
  (mu cache = Unlocked →
   ∃ cache',
     update groups cache = Some cache' ∧ mu cache' = Unlocked ∧
     (∀ gs1 g gs2, groups = gs1 ++ g :: gs2 →
        json_Unmarshal (Acls g) = None →
        update (gs1 ++ gs2) cache = Some cache') ∧
     (∀ gs1 g g' gs2 as1 a as2, groups = gs1 ++ g :: gs2 →
        json_Unmarshal (Acls g) = Some (as1 ++ a :: as2) →
        Predicate a = "" → regexp_Compile (Regex a) = None →
        GroupID g' = GroupID g →
        json_Unmarshal (Acls g') = Some (as1 ++ as2) →
        update (gs1 ++ g' :: gs2) cache = Some cache') ∧
     (∀ old, mu old = Unlocked → update groups old = Some cache') ∧
     (∀ p gp, predPerms cache' !! p = Some gp →
        (∃ gid a, lists_entry groups gid a ∧ Predicate a = p) ∧
        ∀ gid perm, gp !! gid = Some perm →
          ∃ a, lists_entry groups gid a ∧ Predicate a = p ∧ Perm a = perm) ∧
     (∀ r, r ∈ predRegexRules cache' →
        ∃ gid a, lists_entry groups gid a ∧ Predicate a = "" ∧
                 regexp_Compile (Regex a) = Some (predRegex r))).
Proof.
  split.
  - intros Hmu. unfold update. destruct (buildMaps groups) as [pp rp].
    destruct (mu cache); done.
  - intros Hmu. eexists. split; [by apply update_unlocked|].
    split; [done|]. simpl.
    pose proof (buildMaps_built_from groups) as [Hp Hr].
    repeat split.
    + intros gs1 g gs2 -> Hu. rewrite update_unlocked by done.
      by rewrite (buildMaps_drop_blob gs1 g gs2).
    + intros gs1 g g' gs2 as1 a as2 -> Hu HP Hc Hid Hu'.
      rewrite update_unlocked by done.
      by rewrite (buildMaps_drop_regex gs1 g g' gs2 as1 a as2).
    + intros old Hold. by apply update_unlocked.
    + destruct (Hp _ _ H) as (_ & ? & _). done.
    + intros gid perm Hg. destruct (Hp _ _ H) as (_ & _ & Hperm). eauto.
    + intros r Hin. rewrite range_order_perm in Hin.
      apply list_elem_of_fmap in Hin as ([k r'] & -> & Hin).
      apply elem_of_map_to_list in Hin. simpl.
      destruct (Hr _ _ Hin) as (_ & Hc & (gid & a & ? & ? & <-) & _). eauto.
Qed.

(** ** Further properties of the cache *)

Lemma grants_mono gp (groups groups' : list string) operation :
  (∀ g, g ∈ groups → g ∈ groups') →
  grants gp groups operation → grants gp groups' operation.
Proof. intros Hsub (g & p & Hin & H). exists g, p. split; [by apply Hsub|done]. Qed.

(** X1. [hasRequiredAccess] looks at the caller's groups as a set: two
    lists with the same members give the same answer, and the answer for a
    concatenation is the disjunction of the answers for its parts. *)
Theorem hasRequiredAccess_groups_as_set gp operation :
  (∀ groups groups' : list string,
     (∀ g, g ∈ groups ↔ g ∈ groups') →
     hasRequiredAccess gp groups operation
     = hasRequiredAccess gp groups' operation) ∧
  (∀ groups groups' : list string,
     hasRequiredAccess gp (groups ++ groups') operation
     = hasRequiredAccess gp groups operation
       || hasRequiredAccess gp groups' operation).
Proof.
  split.
  - intros groups groups' Hset. apply eq_true_iff_eq.
    rewrite !hasRequiredAccess_grants.
    split; apply grants_mono; intros g; by apply Hset.
  - intros groups groups'. apply eq_true_iff_eq.
    rewrite orb_true_iff, !hasRequiredAccess_grants. split.
    + intros (g & p & [Hin|Hin]%elem_of_app & H); [left|right];
        by exists g, p.
    + intros [H|H]; (eapply grants_mono; [|exact H]); intros g Hg;
        apply elem_of_app; [by left|by right].
Qed.

(** X2. [hasRequiredAccess] never grants to a caller without groups, nor
    to a caller none of whose groups the rule knows, nor an operation whose
    code is 0. *)
Theorem hasRequiredAccess_never_grants gp groups operation :
  hasRequiredAccess gp [] operation = false ∧
  ((∀ g, g ∈ groups → gp !! g = None) →
     hasRequiredAccess gp groups operation = false) ∧
  (Code operation = 0%Z → hasRequiredAccess gp groups operation = false).
Proof.
  split; [done|]. split.
  - intros Hnone. apply not_true_iff_false.
    intros (g & p & Hin & Hl & _)%hasRequiredAccess_grants.
    by rewrite (Hnone g Hin) in Hl.
  - intros Hc. apply not_true_iff_false.
    intros (g & p & _ & _ & Hne)%hasRequiredAccess_grants.
    rewrite Hc, Z.land_0_r in Hne. done.
Qed.

Lemma regexLoop_perm rules rules' groups predicate operation m :
  rules ≡ₚ rules' →
  regexLoop rules groups predicate operation m
  = regexLoop rules' groups predicate operation m.
Proof.
  intros Hp.
  destruct (regexLoop rules groups predicate operation m) as [b|] eqn:H1,
           (regexLoop rules' groups predicate operation m) as [b'|] eqn:H2.
  - f_equal. apply eq_true_iff_eq.
    rewrite (regexLoop_falls_through _ _ _ _ _ _ H1),
            (regexLoop_falls_through _ _ _ _ _ _ H2).
    split; (intros [?|(r & Hin & ?)]; [by left|right]); exists r;
      (split; [|done]); [by rewrite <- Hp|by rewrite Hp].
  - apply regexLoop_returns in H2 as (r & Hin & ?).
    assert (Hn : regexLoop rules groups predicate operation m = None).
    { apply regexLoop_returns. exists r. split; [by rewrite Hp|done]. }
    congruence.
  - apply regexLoop_returns in H1 as (r & Hin & ?).
    assert (Hn : regexLoop rules' groups predicate operation m = None).
    { apply regexLoop_returns. exists r. split; [by rewrite <- Hp|done]. }
    congruence.
  - done.
Qed.

(** X3. The answer of [authorizePredicate], error message included, does
    not depend on the order of the regex rules in the cache (the order
    [update] leaves them in is the order of a Go map range). *)
Theorem authorizePredicate_rule_order cache cache' groups predicate operation :
  mu cache = mu cache' →
  predPerms cache = predPerms cache' →
  predRegexRules cache ≡ₚ predRegexRules cache' →
  authorizePredicate cache groups predicate operation
  = authorizePredicate cache' groups predicate operation.
Proof.
  intros Hmu Hpp Hrules. unfold authorizePredicate, snapshot.
  rewrite <- Hmu, <- Hpp.
  destruct (IsAclPredicate predicate); [done|].
  destruct (mu cache) as [| |[|n]]; simpl; try done.
  all: by rewrite (regexLoop_perm _ _ _ _ _ _ Hrules).
Qed.

(** X4. Belonging to more groups never takes access away: when
    [authorizePredicate] allows an operation to a caller, it allows it to
    every caller whose groups include that caller's. *)
Theorem authorizePredicate_more_groups cache groups groups' predicate operation :
  (∀ g, g ∈ groups → g ∈ groups') →
  authorizePredicate cache groups predicate operation = Some nil_error →
  authorizePredicate cache groups' predicate operation = Some nil_error.
Proof.
  intros Hsub Hok.
  destruct (IsAclPredicate predicate) eqn:Hacl.
  { unfold authorizePredicate in Hok. by rewrite Hacl in Hok. }
  destruct (decide (mu cache = WLocked)) as [Hmu|Hmu].
  { by rewrite (authorizePredicate_blocked _ _ _ _ Hacl Hmu) in Hok. }
  destruct (authorizePredicate_denies_iff cache groups predicate operation
              Hacl Hmu) as [_ Hiff].
  destruct (authorizePredicate_denies_iff cache groups' predicate operation
              Hacl Hmu) as [[[msg|] Hr] Hiff']; [|done].
  exfalso.
  assert (Hd : denies (authorizePredicate cache groups' predicate operation))
    by (by exists msg).
  apply Hiff' in Hd as [Hm Hng].
  assert (Hd : denies (authorizePredicate cache groups predicate operation)).
  { apply Hiff. split; [done|]. intros [(gp & ? & Hg)|(r & ? & ? & Hg)];
      apply Hng; [left|right]; eauto 6 using grants_mono. }
  destruct Hd as [msg' Hd]. rewrite Hok in Hd. done.
Qed.

(** X5. A caller without groups is refused exactly the predicates some
    rule matches (and the reserved ones). *)
Theorem authorizePredicate_no_groups cache predicate operation :
  IsAclPredicate predicate = false → mu cache ≠ WLocked →
  denies (authorizePredicate cache [] predicate operation) ↔
  exact_rule_matches cache predicate ∨ regex_rule_matches cache predicate.
Proof.
  intros Hacl Hmu.
  destruct (authorizePredicate_denies_iff cache [] predicate operation
              Hacl Hmu) as [_ ->].
  split; [by intros [? _]|]. intros Hm. split; [done|].
  intros [(gp & _ & (g & p & Hin & _))|(r & _ & _ & (g & p & Hin & _))];
    by apply elem_of_nil in Hin.
Qed.

(** Every exact entry [groups] lists has left its mark in the maps. *)
Definition covered (st : building) (gid p : string) : Prop :=
  ∃ gp perm, st.1 !! p = Some gp ∧ gp !! gid = Some perm.

Lemma addAcl_keeps_covered gid' a' st gid p :
  covered st gid p → covered (addAcl gid' a' st) gid p.
Proof.
  intros (gp & perm & Hp & Hg). destruct st as [pp rp]. unfold addAcl, covered.
  simpl in *.
  destruct (0 <? String.length (Predicate a'))%nat.
  - destruct (decide (Predicate a' = p)) as [->|Hne].
    + rewrite Hp. simpl. rewrite lookup_insert_eq.
      destruct (decide (gid' = gid)) as [->|Hne'].
      * eexists _, _. split; [done|]. apply lookup_insert_eq.
      * eexists _, _. split; [done|]. by rewrite lookup_insert_ne.
    + destruct (pp !! Predicate a'); simpl; rewrite lookup_insert_ne by done;
        eauto.
  - destruct (0 <? String.length (Regex a'))%nat; [|by eauto].
    destruct (rp !! Regex a'); [by eauto|].
    destruct (regexp_Compile (Regex a')); eauto.
Qed.

Lemma addAcl_covers gid a st :
  Predicate a ≠ "" → covered (addAcl gid a st) gid (Predicate a).
Proof.
  intros Hne%nonempty_string. destruct st as [pp rp]. unfold addAcl, covered.
  rewrite Hne. destruct (pp !! Predicate a); simpl; rewrite lookup_insert_eq;
    eexists _, _; (split; [done|]); apply lookup_insert_eq.
Qed.

Lemma addAcls_keeps_covered gid' acls st gid p :
  covered st gid p → covered (addAcls gid' acls st) gid p.
Proof.
  unfold addAcls. revert st. induction acls as [|a acls IH]; intros st H;
    [done|].
  simpl. by apply IH, addAcl_keeps_covered.
Qed.

Lemma addGroups_keep_covered gs st gid p :
  covered st gid p →
  covered (fold_left (λ st g, addGroup g st) gs st) gid p.
Proof.
  revert st. induction gs as [|g gs IH]; intros st H; [done|].
  simpl. apply IH. unfold addGroup.
  destruct (json_Unmarshal (Acls g)); [|done]. by apply addAcls_keeps_covered.
Qed.

Lemma buildMaps_covers groups gid a :
  lists_entry groups gid a → Predicate a ≠ "" →
  covered (buildMaps groups) gid (Predicate a).
Proof.
  intros (g & acls & Hg & <- & Hu & Ha) Hne.
  apply list_elem_of_split in Hg as (gs1 & gs2 & ->).
  apply list_elem_of_split in Ha as (as1 & as2 & ->).
  rewrite buildMaps_split. apply addGroups_keep_covered.
  unfold addGroup. rewrite Hu. unfold addAcls. rewrite fold_left_app. simpl.
  apply (addAcls_keeps_covered (GroupID g) as2). by apply addAcl_covers.
Qed.

Lemma update_Some groups cache cache' :
  update groups cache = Some cache' →
  mu cache' = Unlocked ∧ predPerms cache' = (buildMaps groups).1 ∧
  predRegexRules cache' = range_order (buildMaps groups).2.
Proof.
  intros Hu. destruct (decide (mu cache = Unlocked)) as [Hmu|Hmu].
  - rewrite (update_unlocked _ _ Hmu) in Hu. by injection Hu as <-.
  - unfold update in Hu. destruct (buildMaps groups).
    by destruct (mu cache).
Qed.

(** X6. After [update], whatever the cache held before: a predicate that
    is not reserved, that no entry of [groups] names and that no pattern
    of [groups] matches is open to every caller. *)
Theorem update_then_unlisted_is_open groups cache cache' callers predicate
    operation :
  update groups cache = Some cache' →
  IsAclPredicate predicate = false →
  (∀ gid a, lists_entry groups gid a → Predicate a ≠ predicate) →
  (∀ gid a re, lists_entry groups gid a → Predicate a = "" →
     regexp_Compile (Regex a) = Some re → MatchString re predicate = false) →
  authorizePredicate cache' callers predicate operation = Some nil_error.
Proof.
  intros (Hmu & Hpp & Hrules)%update_Some Hacl Hexact Hregex.
  pose proof (buildMaps_built_from groups) as [Hp Hr].
  assert (Hfree : mu cache' ≠ WLocked) by (by rewrite Hmu).
  destruct (authorizePredicate_denies_iff cache' callers predicate operation
              Hacl Hfree) as [[[msg|] Hres] Hiff]; [|done].
  exfalso.
  assert (Hd : denies (authorizePredicate cache' callers predicate operation))
    by (by exists msg).
  apply Hiff in Hd as [[[gp Hl]|(r & Hin & Hm)] _].
  - rewrite Hpp in Hl. destruct (Hp _ _ Hl) as (_ & (gid & a & Hle & Ha) & _).
    by eapply Hexact.
  - rewrite Hrules, range_order_perm in Hin.
    apply list_elem_of_fmap in Hin as ([k r'] & -> & Hin).
    apply elem_of_map_to_list in Hin. simpl in Hm.
    destruct (Hr _ _ Hin) as (_ & Hc & (gid & a & Hle & Ha & <-) & _).
    rewrite (Hregex _ _ _ Hle Ha Hc) in Hm. done.
Qed.

(** X7. After [update], a caller in group [gid] may do an operation on a
    predicate that is not reserved when [groups] lists an exact entry for
    that group and predicate and every such entry carries a bit of the
    operation's code. *)
Theorem update_then_granted groups cache cache' gid a callers operation :
  update groups cache = Some cache' →
  IsAclPredicate (Predicate a) = false →
  lists_entry groups gid a → Predicate a ≠ "" → gid ∈ callers →
  (∀ a', lists_entry groups gid a' → Predicate a' = Predicate a →
         Z.land (Perm a') (Code operation) ≠ 0%Z) →
  authorizePredicate cache' callers (Predicate a) operation = Some nil_error.
Proof.
  intros (Hmu & Hpp & _)%update_Some Hacl Hle Hne Hin Hall.
  destruct (buildMaps_covers groups gid a Hle Hne) as (gp & perm & Hl & Hg).
  pose proof (buildMaps_built_from groups) as [Hp _].
  destruct (Hp _ _ Hl) as (_ & _ & Hperm).
  destruct (Hperm _ _ Hg) as (a' & Hle' & Ha' & <-).
  assert (Hacc : hasRequiredAccess gp callers operation = true).
  { apply hasRequiredAccess_grants. exists gid, (Perm a'). eauto. }
  unfold authorizePredicate, snapshot. rewrite Hacl, Hmu, Hpp. simpl.
  by rewrite Hl, Hacc.
Qed.

(** X8. When no blob of [groups] unmarshals (in particular when [groups]
    is empty) [update] leaves an empty cache, under which every predicate
    that is not reserved is open to every caller. *)
Theorem update_without_rules_opens_all groups cache :
  mu cache = Unlocked →
  (∀ g, g ∈ groups → json_Unmarshal (Acls g) = None) →
  update groups cache
  = Some {| mu := Unlocked; predPerms := ∅; predRegexRules := [] |}
  ∧ ∀ callers predicate operation,
      IsAclPredicate predicate = false →
      authorizePredicate
        {| mu := Unlocked; predPerms := ∅; predRegexRules := [] |}
        callers predicate operation = Some nil_error.
Proof.
  intros Hmu Hbad. split.
  - rewrite (update_unlocked _ _ Hmu).
    assert (Hb : ∀ st, fold_left (λ st g, addGroup g st) groups st = st).
    { induction groups as [|g gs IH]; intros st; [done|]. simpl.
      rewrite addGroup_skips_blob by (apply Hbad, list_elem_of_here).
      apply IH. intros g' Hg'. by apply Hbad, list_elem_of_further. }
    unfold buildMaps.
    rewrite Hb. simpl. f_equal. f_equal.
    apply Permutation_nil_r. rewrite range_order_perm.
    by rewrite map_to_list_empty.
  - intros callers predicate operation Hacl.
    unfold authorizePredicate, snapshot. rewrite Hacl. simpl.
    by rewrite lookup_empty.
Qed.

End Cache.

Definition demo_range (m : gmap string (predRegexRule string))
    : list (predRegexRule string) := (map_to_list m).*2.

Definition demo_cache : aclCache string :=
  {| mu := Unlocked;
     predPerms := {[ "friend" := {[ "dev" := 4%Z; "sre" := 6%Z ]} ]};
     predRegexRules :=
       [ {| predRegex := "user."; groupPerms := {[ "dev" := 4%Z ]} |} ] |}.

(** The cache after [update demo_groups] on the initial cache: the blob of
    [ops] and the pattern ["("] are skipped. *)
Lemma demo_update :
  update string demo_Compile demo_Unmarshal demo_range
    demo_groups (aclCachePtr0 string) = Some demo_cache.
Proof. vm_compute. reflexivity. Qed.

Lemma demo_authorize :
  authorizePredicate string demo_Match demo_IsAclPredicate demo_cache
    ["dev"] "user.name" demo_read = Some nil_error
  ∧ authorizePredicate string demo_Match demo_IsAclPredicate demo_cache
    ["sre"] "user.name" demo_read
    = Some (Some "unauthorized to do Read on predicate user.name")
  ∧ authorizePredicate string demo_Match demo_IsAclPredicate demo_cache
    ["dev"] "friend" demo_modify
    = Some (Some "unauthorized to do Modify on predicate friend").
Proof. vm_compute. done. Qed.

Lemma authorizePredicate_fail_open_witness :
  denies (authorizePredicate string demo_Match demo_IsAclPredicate
            demo_cache ["dev"] "dgraph.group.acl" demo_read)
  ∧ authorizePredicate string demo_Match demo_IsAclPredicate
      demo_cache [] "age" demo_read = Some nil_error
  ∧ ((exact_rule_matches string demo_cache "friend"
      ∨ regex_rule_matches string demo_Match demo_cache "friend")
     ∧ ¬ matching_rule_grants string demo_Match demo_cache
           ["dev"] "friend" demo_modify).
Proof.
  split; [|split].
  - apply (authorizePredicate_fail_open string demo_Match demo_IsAclPredicate
             demo_cache ["dev"] "dgraph.group.acl" demo_read).
    reflexivity.
  - apply (authorizePredicate_fail_open string demo_Match demo_IsAclPredicate
             demo_cache [] "age" demo_read).
    + reflexivity.
    + discriminate.
    + intros [gp H]. vm_compute in H. discriminate H.
    + intros (r & Hin & Hm). simpl in Hin.
      apply list_elem_of_singleton in Hin. subst r. vm_compute in Hm.
      discriminate Hm.
  - apply (authorizePredicate_fail_open string demo_Match demo_IsAclPredicate
             demo_cache ["dev"] "friend" demo_modify).
    + reflexivity.
    + vm_compute. eexists. reflexivity.
Defined.

Lemma update_replaces_wholesale_witness :
  update string demo_Compile demo_Unmarshal demo_range demo_groups
    {| mu := RLocked 0; predPerms := ∅; predRegexRules := [] |} = None
  ∧ ∃ cache',
      update string demo_Compile demo_Unmarshal demo_range demo_groups
        demo_cache = Some cache'
      ∧ mu string cache' = Unlocked
      ∧ (∀ p gp, predPerms string cache' !! p = Some gp →
           ∃ gid a, lists_entry demo_Unmarshal demo_groups gid a ∧
                    Predicate a = p).
Proof.
  split.
  - apply (update_replaces_wholesale string demo_Compile demo_Unmarshal
             demo_range (λ m, reflexivity _) demo_groups).
    discriminate.
  - destruct (update_replaces_wholesale string demo_Compile demo_Unmarshal
                demo_range (λ m, reflexivity _) demo_groups demo_cache)
      as [_ H].
    destruct (H eq_refl) as (c' & Hu & Hm & _ & _ & _ & Hp & _).
    exists c'. split; [exact Hu|]. split; [exact Hm|].
    intros p gp Hl. exact (proj1 (Hp p gp Hl)).
Defined.

(** The entries the demo groups list, one case each. *)
Ltac demo_entries H :=
  destruct H as (?g & ?acls & Hg & Hid & Hu & Ha);
  repeat (apply elem_of_cons in Hg as [->|Hg]);
  try (by apply elem_of_nil in Hg);
  vm_compute in Hu; try discriminate Hu;
  injection Hu as <-;
  repeat (apply elem_of_cons in Ha as [->|Ha]);
  try (by apply elem_of_nil in Ha);
  simpl in *.

Lemma hasRequiredAccess_groups_as_set_witness :
  hasRequiredAccess {[ "dev" := 4%Z; "sre" := 6%Z ]} ["dev"; "sre"] demo_modify
  = hasRequiredAccess {[ "dev" := 4%Z; "sre" := 6%Z ]} ["sre"; "dev"; "sre"]
      demo_modify.
Proof.
  apply (hasRequiredAccess_groups_as_set {[ "dev" := 4%Z; "sre" := 6%Z ]}
           demo_modify).
  intros g. rewrite !elem_of_cons, !elem_of_nil. tauto.
Defined.

Lemma hasRequiredAccess_never_grants_witness :
  hasRequiredAccess {[ "dev" := 4%Z ]} ["ops"] demo_read = false
  ∧ hasRequiredAccess {[ "dev" := 4%Z ]} ["dev"] {| Code := 0; Name := "None" |}
    = false.
Proof.
  split.
  - apply (proj1 (proj2 (hasRequiredAccess_never_grants {[ "dev" := 4%Z ]}
                           ["ops"] demo_read))).
    intros g ->%list_elem_of_singleton. reflexivity.
  - apply (proj2 (proj2 (hasRequiredAccess_never_grants {[ "dev" := 4%Z ]}
                           ["dev"] {| Code := 0; Name := "None" |}))).
    reflexivity.
Defined.

Definition demo_rule_user : predRegexRule string :=
  {| predRegex := "user."; groupPerms := {[ "dev" := 4%Z ]} |}.
Definition demo_rule_u : predRegexRule string :=
  {| predRegex := "u"; groupPerms := {[ "sre" := 2%Z ]} |}.

Lemma authorizePredicate_rule_order_witness :
  authorizePredicate string demo_Match demo_IsAclPredicate
    {| mu := Unlocked; predPerms := ∅;
       predRegexRules := [demo_rule_user; demo_rule_u] |}
    ["sre"] "user.name" demo_read
  = authorizePredicate string demo_Match demo_IsAclPredicate
      {| mu := Unlocked; predPerms := ∅;
         predRegexRules := [demo_rule_u; demo_rule_user] |}
      ["sre"] "user.name" demo_read.
Proof.
  apply (authorizePredicate_rule_order string demo_Match demo_IsAclPredicate).
  - reflexivity.
  - reflexivity.
  - simpl. apply perm_swap.
Defined.

Lemma authorizePredicate_more_groups_witness :
  authorizePredicate string demo_Match demo_IsAclPredicate demo_cache
    ["sre"; "dev"] "user.name" demo_read = Some nil_error.
Proof.
  apply (authorizePredicate_more_groups string demo_Match demo_IsAclPredicate
           demo_cache ["dev"] ["sre"; "dev"] "user.name" demo_read).
  - intros g ->%list_elem_of_singleton. rewrite !elem_of_cons. tauto.
  - vm_compute. reflexivity.
Defined.

Lemma authorizePredicate_no_groups_witness :
  denies (authorizePredicate string demo_Match demo_IsAclPredicate demo_cache
            [] "friend" demo_read).
Proof.
  apply (authorizePredicate_no_groups string demo_Match demo_IsAclPredicate
           demo_cache "friend" demo_read).
  - reflexivity.
  - discriminate.
  - left. vm_compute. eexists. reflexivity.
Defined.

Lemma update_then_unlisted_is_open_witness :
  authorizePredicate string demo_Match demo_IsAclPredicate demo_cache
    ["ops"] "age" demo_modify = Some nil_error.
Proof.
  apply (update_then_unlisted_is_open string demo_Compile demo_Match
           demo_Unmarshal demo_IsAclPredicate demo_range
           (λ m, reflexivity _) demo_groups
           {| mu := Unlocked; predPerms := {[ "age" := {[ "ops" := 0%Z ]} ]};
              predRegexRules := [] |}).
  - vm_compute. reflexivity.
  - reflexivity.
  - intros gid a H. demo_entries H; discriminate.
  - intros gid a re H Hp Hc. demo_entries H; try discriminate Hp;
      vm_compute in Hc; try discriminate Hc; by injection Hc as <-.
Defined.

Lemma update_then_granted_witness :
  authorizePredicate string demo_Match demo_IsAclPredicate demo_cache
    ["dev"] "friend" demo_read = Some nil_error.
Proof.
  apply (update_then_granted string demo_Compile demo_Match demo_Unmarshal
           demo_IsAclPredicate demo_range demo_groups
           (aclCachePtr0 string) demo_cache "dev"
           {| Predicate := "friend"; Regex := ""; Perm := 4 |}).
  - vm_compute. reflexivity.
  - reflexivity.
  - exists {| GroupID := "dev"; Acls := "dev-blob" |},
      [ {| Predicate := "friend"; Regex := ""; Perm := 4 |};
        {| Predicate := ""; Regex := "("; Perm := 7 |};
        {| Predicate := ""; Regex := "user."; Perm := 4 |} ].
    split; [apply list_elem_of_here|]. split; [reflexivity|].
    split; [reflexivity|apply list_elem_of_here].
  - discriminate.
  - apply list_elem_of_here.
  - intros a' H Hp. demo_entries H; try discriminate Hp; try discriminate Hid;
      discriminate.
Defined.

Lemma update_without_rules_opens_all_witness :
  update string demo_Compile demo_Unmarshal demo_range
    [ {| GroupID := "ops"; Acls := "{not json" |} ] demo_cache
  = Some {| mu := Unlocked; predPerms := ∅; predRegexRules := [] |}.
Proof.
  apply (update_without_rules_opens_all string demo_Compile demo_Match
           demo_Unmarshal demo_IsAclPredicate demo_range
           (λ m, reflexivity _)
           [ {| GroupID := "ops"; Acls := "{not json" |} ] demo_cache).
  - reflexivity.
  - intros g ->%list_elem_of_singleton. reflexivity.
Defined.

End Acl.

(* ===================================================================== *)
(** * The bulk loader: set-up of the map stage *)
(* ===================================================================== *)

Module Loader.

Record options := {
  rdfFile : string;
  schemaFile : string;
  badgerDir : string;
  tmpDir : string;
  numGoroutines : Z
}.

(** Capacities of the channels [newLoader] and [reduceStage] make. *)
Definition rdfCh_cap : nat := 1000.
Definition postingsCh_cap : nat := 1000.
Definition shuffleInputCh_cap : nat := 1000.
Definition reduceCh_cap : nat := 3.

(** ** [make] for slices

    [make([]T, n)] goes through the runtime's [makeslice], which panics with
    [makeslice: len out of range] when [n] is negative or when [n] elements
    take more than [maxAlloc] bytes (a size that overflows [uintptr] is
    larger still). The figures are those of a 64-bit platform with 48
    address bits, linux/amd64 among them: [int] has 64 bits, a pointer
    takes 8 bytes and [maxAlloc] is [2^48]. *)
Definition PtrSize : Z := 8.
Definition maxAlloc : Z := 2 ^ 48.
Definition makeslice_len_ok (elem_size n : Z) : bool :=
  (0 <=? n)%Z && (elem_size * n <=? maxAlloc)%Z.

(** ** Straight-line code of the main goroutine

    A computation of the main goroutine returns, or ends the process
    ([x.Check] and [x.Checkf] on a non-nil error: [Fatal]; a runtime panic:
    [Panic]); on its way it starts goroutines, recorded in order. *)

Inductive goroutine := GReport | GWriter | GMapper (i : nat).

Inductive outcome (A : Type) :=
  | Ok (a : A)
  | Fatal (msg : string)
  | Panic (msg : string).
Arguments Ok {A} a.
Arguments Fatal {A} msg.
Arguments Panic {A} msg.

Definition proc (A : Type) : Type := list goroutine * outcome A.

#[export] Instance proc_ret : MRet proc := λ A a, ([], Ok a).
#[export] Instance proc_bind : MBind proc := λ A B f m,
  match m with
  | (started, Ok a) => let '(started', r) := f a in (started ++ started', r)
  | (started, Fatal msg) => (started, Fatal msg)
  | (started, Panic msg) => (started, Panic msg)
  end.

(** [go f()] *)
Definition go_ (g : goroutine) : proc unit := ([g], Ok tt).

(** [x.Checkf(err, msg)] and [x.Check(err)] on the error of a call whose
    value is [r]. *)
Definition Checkf {A} (r : option A) (msg : string) : proc A :=
  match r with Some a => ([], Ok a) | None => ([], Fatal msg) end.
Definition Check {A} (r : option A) : proc A := Checkf r "".

Definition panic {A} (msg : string) : proc A := ([], Panic msg).

(** A goroutine that does work of the pipeline (the progress reporter does
    not). *)
Definition is_worker (g : goroutine) : bool :=
  match g with GReport => false | GWriter | GMapper _ => true end.

Definition no_worker_started {A} (p : proc A) : bool :=
  forallb (λ g, negb (is_worker g)) p.1.

Definition is_fatal {A} (p : proc A) : bool :=
  match p.2 with Fatal _ => true | _ => false end.

(** ** Byte streams, [strings.HasSuffix] and [bufio.Scanner] *)

(** What a reader delivers: its bytes, and whether it then fails with an
    error other than end of file. *)
Record stream := { data : string; broken : bool }.

Definition strings_HasSuffix (s suffix : string) : bool :=
  (String.length suffix <=? String.length s) &&
  String.eqb
    (String.substring (String.length s - String.length suffix)
                      (String.length suffix) s)
    suffix.

(** [bufio.MaxScanTokenSize] *)
Definition MaxScanTokenSize : N := 65536.

Definition newline : Ascii.ascii := Ascii.ascii_of_nat 10.
Definition carriage_return : Ascii.ascii := Ascii.ascii_of_nat 13.

(** [dropCR] of bufio: a line given most recent byte first. *)
Definition dropCR (rev_line : list Ascii.ascii) : string :=
  match rev_line with
  | c :: rest =>
      if Ascii.eqb c carriage_return then String.string_of_list_ascii (rev rest)
      else String.string_of_list_ascii (rev rev_line)
  | [] => ""
  end.

(** The tokens [Scan] yields with the [ScanLines] split function, and
    whether scanning stopped on [ErrTooLong]. [cur] is the line being read,
    most recent byte first, and [n] its length. *)
Fixpoint scanLines (s : string) (cur : list Ascii.ascii) (n : N)
    : list string * bool :=
  match s with
  | EmptyString =>
      match cur with [] => ([], false) | _ => ([dropCR cur], false) end
  | String c rest =>
      if Ascii.eqb c newline then
        let '(lines, err) := scanLines rest [] 0%N in (dropCR cur :: lines, err)
      else if (N.succ n <? MaxScanTokenSize)%N then
        scanLines rest (c :: cur) (N.succ n)
      else ([], true)
  end.

(** [bufio.NewScanner(r)] followed by [sc.Scan()] until it returns false:
    the texts, and whether [sc.Err()] is non-nil. *)
Definition scan_all (r : stream) : list string * bool :=
  let '(lines, too_long) := scanLines (data r) [] 0%N in
  (lines, too_long || broken r).

(** A small concrete world to run the set-up in: one schema file, a plain
    and a compressed source with the same two lines, and a decompressor
    that strips a two-byte header. *)
Definition nl : string := String newline "".
Definition demo_lines : string :=
  "<a> <name> <b> ." +:+ nl +:+ "<b> <name> <c> ." +:+ nl.
Definition demo_ReadFile (path : string) : option string :=
  if String.eqb path "data.schema" then Some "name: string ." else None.
Definition demo_Parse (buf : string) : option string :=
  if String.eqb buf "" then None else Some buf.
Definition demo_TempDir (dir pre : string) : option string :=
  Some (dir +:+ "/" +:+ pre +:+ "042").
Definition demo_Open (path : string) : option stream :=
  if String.eqb path "data.rdf" then
    Some {| data := demo_lines; broken := false |}
  else if String.eqb path "data.rdf.gz" then
    Some {| data := "GZ" +:+ demo_lines; broken := false |}
  else if String.eqb path "plain.gz" then
    Some {| data := demo_lines; broken := false |}
  else None.
Definition demo_gzip (f : stream) : option stream :=
  if String.prefix "GZ" (data f) then
    Some {| data := String.substring 2 (String.length (data f) - 2) (data f);
            broken := broken f |}
  else None.
Definition demo_options (rdf : string) : options :=
  {| rdfFile := rdf; schemaFile := "data.schema"; badgerDir := "out";
     tmpDir := "tmp"; numGoroutines := 2 |}.

Section Setup.

(** The schema package, the file system and the gzip package. *)
Variable Schema : Type.
Variable ioutil_ReadFile : string → option string.
Variable schema_Parse : string → option Schema.
Variable ioutil_TempDir : string → string → option string.
Variable os_Open : string → option stream.
Variable gzip_NewReader : stream → option stream.

Record loader := {
  opt : options;
  ss : Schema;
  mappers : list nat;
  mapOutput : list string
}.

(** [newLoader]. The constructors [newProgress], [newUIDMap] and
    [newSchemaStore] belong to other files of the package: they are taken
    to return their value, of which the loader below keeps the schema.
    [make([]*mapper, opt.numGoroutines)] is where a width that is no slice
    length panics; the loop that fills the slice gives slot [i] its
    mapper. *)
Definition newLoader (o : options) : proc loader :=
  schemaBuf ← Checkf (ioutil_ReadFile (schemaFile o)) "Could not load schema.";
  initialSchema ← Checkf (schema_Parse schemaBuf) "Could not parse schema.";
  if negb (makeslice_len_ok PtrSize (numGoroutines o))
  then panic "makeslice: len out of range"
  else mret {| opt := o; ss := initialSchema;
               mappers := seq 0 (Z.to_nat (numGoroutines o));
               mapOutput := [] |}.

(** Lines 91 to 98 of [mapStage]: the scanner over the raw file, or over a
    gzip reader when the path ends in [.gz]. *)
Definition open_scanner (path : string) (f : stream) : proc stream :=
  if negb (strings_HasSuffix path ".gz") then mret f
  else
    gzr ← Checkf (gzip_NewReader f) "Could not create gzip reader for RDF file.";
    mret gzr.

(** [for _, m := range ld.mappers { go ... }] *)
Definition spawn_mappers (ms : list nat) : proc unit :=
  (GMapper <$> ms, Ok tt).

(** [mapStage] up to the scan loop: the temporary directory and the
    scanner it goes on with. *)
Definition mapStage_setup (ld : loader) : proc (string * stream) :=
  go_ GReport;;
  tmpPostingsDir ← Check (ioutil_TempDir (tmpDir (opt ld)) "bulkloader_tmp_posting_");
  go_ GWriter;;
  f ← Checkf (os_Open (rdfFile (opt ld))) "Could not read RDF file.";
  spawn_mappers (mappers ld);;
  sc ← open_scanner (rdfFile (opt ld)) f;
  mret (tmpPostingsDir, sc).

(** [newLoader] then [mapStage], up to the scan loop. *)
Definition setup (o : options) : proc (string * stream) :=
  ld ← newLoader o; mapStage_setup ld.

(** The records the map stage reads from a source at [path] whose bytes
    are [f]; [None] when the scanner cannot be set up. *)
Definition records_of (path : string) (f : stream) : option (list string * bool) :=
  match (open_scanner path f).2 with
  | Ok sc => Some (scan_all sc)
  | _ => None
  end.

(** ** [strings.HasSuffix] *)

Lemma substring_all (s : string) : String.substring 0 (String.length s) s = s.
Proof. induction s as [|c s IH]; simpl; [done|]. by rewrite IH. Qed.

Lemma substring_skip (pre suf : string) :
  String.substring (String.length pre) (String.length suf) (pre +:+ suf) = suf.
Proof. induction pre as [|c pre IH]; simpl; [apply substring_all|done]. Qed.

Lemma string_length_app (s1 s2 : string) :
  String.length (s1 +:+ s2) = String.length s1 + String.length s2.
Proof. induction s1 as [|c s1 IH]; simpl; [done|]. by rewrite IH. Qed.

Lemma string_split_at (n : nat) (s : string) :
  n ≤ String.length s →
  s = String.substring 0 n s +:+ String.substring n (String.length s - n) s.
Proof.
  revert s. induction n as [|n IH]; intros s Hn.
  - simpl. rewrite Nat.sub_0_r, substring_all. by destruct s.
  - destruct s as [|c s]; simpl in *; [lia|].
    change (String c s = String c (String.substring 0 n s +:+
              String.substring n (String.length s - n) s)).
    f_equal. apply IH. lia.
Qed.

Lemma HasSuffix_spec (s suffix : string) :
  strings_HasSuffix s suffix = true ↔ ∃ stem, s = stem +:+ suffix.
Proof.
  unfold strings_HasSuffix. rewrite andb_true_iff, Nat.leb_le, String.eqb_eq.
  split.
  - intros [Hle Hsub].
    exists (String.substring 0 (String.length s - String.length suffix) s).
    pose proof (string_split_at (String.length s - String.length suffix) s)
      as Hsplit.
    replace (String.length s - (String.length s - String.length suffix))
      with (String.length suffix) in Hsplit by lia.
    rewrite Hsub in Hsplit. apply Hsplit. lia.
  - intros [stem ->]. rewrite string_length_app. split; [lia|].
    replace (String.length stem + String.length suffix - String.length suffix)
      with (String.length stem) by lia.
    apply substring_skip.
Qed.

(** ** The scanner on the demo sources *)

Lemma scan_demo_lines :
  scan_all {| data := demo_lines; broken := false |}
  = (["<a> <name> <b> ."; "<b> <name> <c> ."], false).
Proof. vm_compute. reflexivity. Qed.

Lemma scan_strips_carriage_return :
  scan_all {| data := "x" +:+ String carriage_return nl +:+ "tail";
              broken := false |}
  = (["x"; "tail"], false).
Proof. vm_compute. reflexivity. Qed.

(** C7. The map stage reads through a gzip reader exactly when the path
    ends in [.gz], and scans the raw file otherwise; a compressed source
    and a plain source holding the decompressed bytes give the same records
    (and the same scan error). *)
Theorem source_reader_gzip_iff_suffix (path : string) (f : stream) :
  (strings_HasSuffix path ".gz" = true ↔ ∃ stem, path = stem +:+ ".gz") ∧
  (strings_HasSuffix path ".gz" = false → open_scanner path f = mret f) ∧
  (strings_HasSuffix path ".gz" = true →
     open_scanner path f =
       Checkf (gzip_NewReader f) "Could not create gzip reader for RDF file.") ∧
  (∀ path' plain,
     strings_HasSuffix path ".gz" = true →
     strings_HasSuffix path' ".gz" = false →
     gzip_NewReader f = Some plain →
     records_of path f = Some (scan_all plain) ∧
     records_of path f = records_of path' plain).
Proof.
  split; [apply HasSuffix_spec|]. unfold records_of, open_scanner.
  split; [|split].
  - intros ->. done.
  - intros ->. simpl. destruct (gzip_NewReader f); done.
  - intros path' plain -> -> Hgz. simpl. rewrite Hgz. done.
Qed.

(** ** Failures during set-up *)

Lemma newLoader_starts_nothing o : (newLoader o).1 = [].
Proof.
  unfold newLoader.
  destruct (ioutil_ReadFile (schemaFile o)) as [buf|]; simpl; [|done].
  destruct (schema_Parse buf); simpl; [|done].
  destruct (makeslice_len_ok PtrSize (numGoroutines o)); done.
Qed.

Lemma newLoader_ok o ld :
  (newLoader o).2 = Ok ld →
  opt ld = o ∧ (0 ≤ numGoroutines o)%Z ∧
  length (mappers ld) = Z.to_nat (numGoroutines o) ∧ mapOutput ld = [].
Proof.
  unfold newLoader.
  destruct (ioutil_ReadFile (schemaFile o)) as [buf|]; simpl; [|done].
  destruct (schema_Parse buf); simpl; [|done].
  destruct (makeslice_len_ok PtrSize (numGoroutines o)) eqn:Hlen; simpl;
    [|done].
  apply andb_prop in Hlen as [Hn%Z.leb_le _].
  intros [= <-]. simpl. rewrite length_seq. done.
Qed.

(** C6, as the code has it. Every failure of the set-up is fatal. A schema
    that cannot be read or parsed ends the process before any goroutine is
    started. A source that cannot be opened ends it after the progress
    reporter and the spill writer were started and before any mapper. A
    gzip reader that cannot be created ends it after the spill writer and
    every mapper were started. *)
Theorem setup_failures_are_fatal (o : options) :
  (ioutil_ReadFile (schemaFile o) = None →
     setup o = ([], Fatal "Could not load schema.")) ∧
  (∀ buf, ioutil_ReadFile (schemaFile o) = Some buf →
     schema_Parse buf = None →
     setup o = ([], Fatal "Could not parse schema.")) ∧
  (∀ ld dir, newLoader o = ([], Ok ld) →
     ioutil_TempDir (tmpDir o) "bulkloader_tmp_posting_" = Some dir →
     os_Open (rdfFile o) = None →
     setup o = ([GReport; GWriter], Fatal "Could not read RDF file.")) ∧
  (∀ ld dir f, newLoader o = ([], Ok ld) →
     ioutil_TempDir (tmpDir o) "bulkloader_tmp_posting_" = Some dir →
     os_Open (rdfFile o) = Some f →
     strings_HasSuffix (rdfFile o) ".gz" = true →
     gzip_NewReader f = None →
     setup o = (GReport :: GWriter :: (GMapper <$> mappers ld),
                Fatal "Could not create gzip reader for RDF file.")).
Proof.
  unfold setup. split; [|split; [|split]].
  - intros H. unfold newLoader. rewrite H. done.
  - intros buf H1 H2. unfold newLoader. rewrite H1. simpl. rewrite H2. done.
  - intros ld dir Hld Hdir Hopen. rewrite Hld. simpl.
    assert (opt ld = o) as Ho by (apply newLoader_ok; by rewrite Hld).
    unfold mapStage_setup. rewrite Ho, Hdir, Hopen. done.
  - intros ld dir f Hld Hdir Hopen Hsuf Hgz. rewrite Hld. simpl.
    assert (opt ld = o) as Ho by (apply newLoader_ok; by rewrite Hld).
    unfold mapStage_setup, open_scanner. rewrite Ho, Hdir, Hopen, Hsuf.
    simpl. rewrite Hgz. simpl. by rewrite app_nil_r.
Qed.


(** X11. When the temporary directory cannot be made, the process ends
    with the progress reporter started and nothing else: no worker, and
    the source is not opened. *)
Theorem setup_no_temp_dir (o : options) (ld : loader) :
  newLoader o = ([], Ok ld) →
  ioutil_TempDir (tmpDir o) "bulkloader_tmp_posting_" = None →
  setup o = ([GReport], Fatal "") ∧ no_worker_started (setup o) = true.
Proof.
  intros Hld Hdir. unfold setup. rewrite Hld. simpl.
  assert (opt ld = o) as Ho by (apply newLoader_ok; by rewrite Hld).
  unfold mapStage_setup. rewrite Ho, Hdir. done.
Qed.

(** X10. When the set-up succeeds, the goroutines it has started are, in
    this order, the progress reporter, the spill writer and one mapper for
    each of the [numGoroutines] slots (the ones the map stage below starts
    from); the width is not negative and the scanner is over the file at
    [rdfFile]. *)
Lemma setup_ok_started o log dir sc :
  setup o = (log, Ok (dir, sc)) →
  (0 ≤ numGoroutines o)%Z ∧
  log = GReport :: GWriter ::
        (GMapper <$> seq 0 (Z.to_nat (numGoroutines o))) ∧
  ∃ f, os_Open (rdfFile o) = Some f ∧
       (open_scanner (rdfFile o) f).2 = Ok sc.
Proof.
  unfold setup. destruct (newLoader o) as [l0 [ld| |]] eqn:Hld; simpl; try done.
  assert (Hl0 : l0 = []).
  { pose proof (newLoader_starts_nothing o) as H. by rewrite Hld in H. }
  destruct (newLoader_ok o ld) as (Ho & Hn & _ & _); [by rewrite Hld|].
  assert (Hms : mappers ld = seq 0 (Z.to_nat (numGoroutines o))).
  { unfold newLoader in Hld.
    destruct (ioutil_ReadFile (schemaFile o)) as [buf|]; simpl in Hld; [|done].
    destruct (schema_Parse buf); simpl in Hld; [|done].
    destruct (makeslice_len_ok PtrSize (numGoroutines o)); simpl in Hld;
      [|done].
    by injection Hld as _ <-. }
  subst l0. unfold mapStage_setup. rewrite Ho, Hms.
  destruct (ioutil_TempDir (tmpDir o) _) as [d|]; simpl; [|done].
  destruct (os_Open (rdfFile o)) as [f|]; simpl; [|done].
  destruct (open_scanner (rdfFile o) f) as [l1 [sc'| |]] eqn:Hsc; simpl;
    try done.
  intros [= <- <- <-]. split; [done|].
  assert (Hl1 : l1 = []).
  { unfold open_scanner in Hsc.
    destruct (negb (strings_HasSuffix (rdfFile o) ".gz")).
    - by injection Hsc as <- _.
    - destruct (gzip_NewReader f); simpl in Hsc; by injection Hsc as <-. }
  subst l1. split; [by rewrite !app_nil_r|]. exists f. by rewrite Hsc.
Qed.

End Setup.

(** Against C6 as stated: a source that cannot be opened ends the process
    with the spill writer already started. *)
Lemma setup_unreadable_source_after_writer :
  setup string demo_ReadFile demo_Parse demo_TempDir demo_Open demo_gzip
    (demo_options "missing.rdf")
  = ([GReport; GWriter], Fatal "Could not read RDF file.")
  ∧ is_fatal (setup string demo_ReadFile demo_Parse demo_TempDir demo_Open
                demo_gzip (demo_options "missing.rdf")) = true
  ∧ no_worker_started (setup string demo_ReadFile demo_Parse demo_TempDir
                         demo_Open demo_gzip (demo_options "missing.rdf"))
    = false.
Proof. vm_compute. done. Qed.

(** A [.gz] source that is not gzip data: the process ends with the spill
    writer and both mappers already started. *)
Lemma setup_bad_gzip_after_mappers :
  setup string demo_ReadFile demo_Parse demo_TempDir demo_Open demo_gzip
    (demo_options "plain.gz")
  = ([GReport; GWriter; GMapper 0; GMapper 1],
     Fatal "Could not create gzip reader for RDF file.").
Proof. vm_compute. done. Qed.


Definition demo_no_TempDir (dir pre : string) : option string := None.

Lemma setup_no_temp_dir_witness :
  setup string demo_ReadFile demo_Parse demo_no_TempDir demo_Open demo_gzip
    (demo_options "data.rdf") = ([GReport], Fatal "").
Proof.
  apply (setup_no_temp_dir string demo_ReadFile demo_Parse demo_no_TempDir
           demo_Open demo_gzip (demo_options "data.rdf")
           {| opt := demo_options "data.rdf"; ss := "name: string .";
              mappers := [0; 1]; mapOutput := [] |}); reflexivity.
Defined.

Lemma setup_ok_started_witness :
  setup string demo_ReadFile demo_Parse demo_TempDir demo_Open demo_gzip
    (demo_options "data.rdf.gz")
  = ([GReport; GWriter; GMapper 0; GMapper 1],
     Ok ("tmp/bulkloader_tmp_posting_042",
         {| data := demo_lines; broken := false |}))
  ∧ (0 ≤ numGoroutines (demo_options "data.rdf.gz"))%Z
  ∧ ∃ f, demo_Open "data.rdf.gz" = Some f.
Proof.
  split; [reflexivity|].
  destruct (setup_ok_started string demo_ReadFile demo_Parse demo_TempDir
              demo_Open demo_gzip (demo_options "data.rdf.gz")
              [GReport; GWriter; GMapper 0; GMapper 1]
              "tmp/bulkloader_tmp_posting_042"
              {| data := demo_lines; broken := false |} eq_refl)
    as (H1 & _ & f & Hf & _).
  split; [exact H1|]. exists f. exact Hf.
Defined.

Lemma setup_failures_are_fatal_witness :
  setup string demo_ReadFile demo_Parse demo_TempDir demo_Open demo_gzip
    {| rdfFile := "data.rdf"; schemaFile := "nowhere"; badgerDir := "out";
       tmpDir := "tmp"; numGoroutines := 2 |}
  = ([], Fatal "Could not load schema.")
  ∧ setup string demo_ReadFile demo_Parse demo_TempDir demo_Open demo_gzip
      (demo_options "missing.rdf")
    = ([GReport; GWriter], Fatal "Could not read RDF file.")
  ∧ setup string demo_ReadFile demo_Parse demo_TempDir demo_Open demo_gzip
      (demo_options "plain.gz")
    = (GReport :: GWriter :: (GMapper <$> [0; 1]),
       Fatal "Could not create gzip reader for RDF file.").
Proof.
  split; [|split].
  - apply (setup_failures_are_fatal string demo_ReadFile demo_Parse
             demo_TempDir demo_Open demo_gzip). reflexivity.
  - eapply (setup_failures_are_fatal string demo_ReadFile demo_Parse
              demo_TempDir demo_Open demo_gzip (demo_options "missing.rdf"));
      reflexivity.
  - eapply (proj2 (proj2 (proj2 (setup_failures_are_fatal string demo_ReadFile
              demo_Parse demo_TempDir demo_Open demo_gzip
              (demo_options "plain.gz"))))
            {| opt := demo_options "plain.gz"; ss := "name: string .";
               mappers := [0; 1]; mapOutput := [] |});
      reflexivity.
Defined.

Lemma source_reader_gzip_iff_suffix_witness :
  records_of demo_gzip "data.rdf.gz" {| data := "GZ" +:+ demo_lines; broken := false |}
  = Some (["<a> <name> <b> ."; "<b> <name> <c> ."], false)
  ∧ records_of demo_gzip "data.rdf.gz"
      {| data := "GZ" +:+ demo_lines; broken := false |}
    = records_of demo_gzip "data.rdf" {| data := demo_lines; broken := false |}.
Proof.
  destruct (source_reader_gzip_iff_suffix demo_gzip "data.rdf.gz"
              {| data := "GZ" +:+ demo_lines; broken := false |})
    as (_ & _ & _ & H).
  destruct (H "data.rdf" {| data := demo_lines; broken := false |}
              eq_refl eq_refl eq_refl) as [H1 H2].
  split; [|exact H2]. rewrite H1. vm_compute. reflexivity.
Defined.

End Loader.

(* ===================================================================== *)
(** * Go channels *)
(* ===================================================================== *)

Module Channel.

(** A buffered channel: the queued values, oldest first, and whether it
    was closed. Its capacity is given at each send. *)
Record chan (A : Type) := Chan { buf : list A; closed : bool }.
Arguments Chan {A} buf closed.
Arguments buf {A} c.
Arguments closed {A} c.

Definition make {A} : chan A := Chan [] false.

Inductive send_result (A : Type) :=
  | Sent (c : chan A)
  | SendBlocks
  | SendPanics.
Arguments Sent {A} c.
Arguments SendBlocks {A}.
Arguments SendPanics {A}.

Inductive recv_result (A : Type) :=
  | Received (x : A) (c : chan A)
  | RecvBlocks
  | RecvClosed.
Arguments Received {A} x c.
Arguments RecvBlocks {A}.
Arguments RecvClosed {A}.

(** [c <- x]: panics on a closed channel, blocks on a full one. *)
Definition send {A} (cap : nat) (x : A) (c : chan A) : send_result A :=
  if closed c then SendPanics
  else if length (buf c) <? cap then Sent (Chan (buf c ++ [x]) false)
  else SendBlocks.

(** [x, ok := <-c], as [range c] uses it: the oldest value; on an empty
    channel it blocks, or reports the end once the channel is closed. *)
Definition recv {A} (c : chan A) : recv_result A :=
  match buf c with
  | x :: rest => Received x (Chan rest (closed c))
  | [] => if closed c then RecvClosed else RecvBlocks
  end.

(** [close(c)] *)
Definition close {A} (c : chan A) : chan A := Chan (buf c) true.

End Channel.

(* ===================================================================== *)
(** * The map stage as a transition system *)
(* ===================================================================== *)

Module MapStage.
Import Channel.

(** A record in flight: the value of the loop counter [i] when it was
    scanned, and its text. *)
Abbreviation rec := (nat * string)%type.

(** The texts [l], numbered from [k]. *)
Fixpoint number (k : nat) (l : list string) : list rec :=
  match l with
  | [] => []
  | x :: l' => (k, x) :: number (S k) l'
  end.

(** Where the main goroutine stands in [mapStage], from the scan loop on. *)
Inductive main_pc :=
  | PScan            (* for sc.Scan() { ld.rdfCh <- sc.Text() } *)
  | PCheck           (* x.Check(sc.Err()) *)
  | PCloseRdf        (* close(ld.rdfCh) *)
  | PWaitMappers     (* mapperWg.Wait() *)
  | PClosePostings   (* close(ld.postingsCh) *)
  | PWaitWriter      (* postingWriterWg.Wait() *)
  | PReturn          (* mapStage has returned *)
  | PFatal           (* x.Check ended the process *)
  | PPanic.          (* a goroutine panicked *)

Definition alive (p : main_pc) : bool :=
  match p with PFatal | PPanic => false | _ => true end.

Inductive thread := TMain | TMapper (k : nat) | TWriter.

Section Stage.

(** The collaborators: what the record transformer makes of a text, and
    the run files the spill writer reports for the postings it drained. *)
Variable Posting : Type.
Variable parse : string → list Posting.
Variable runsOf : list Posting → list string.

(** The pool width [len(ld.mappers)] and what the scanner yields. *)
Variable W : nat.
Variable lines : list string.
Variable scanErr : bool.

Inductive mapper_pc := MRun (pending : list Posting) | MExit.
Record mapper := { mpc : mapper_pc; seen : list rec }.

Definition exited (m : mapper) : bool :=
  match mpc m with MExit => true | MRun _ => false end.

Record state := {
  pc : main_pc;
  i : nat;
  src : list string;
  rdfCh : chan rec;
  postingsCh : chan Posting;
  mappers : list mapper;
  writer_done : bool;
  written : list Posting;
  mapOutput : list string;
  sent : list rec
}.

Definition set_pc (v : main_pc) (s : state) : state :=
  {| pc := v; i := i s; src := src s; rdfCh := rdfCh s;
     postingsCh := postingsCh s; mappers := mappers s;
     writer_done := writer_done s; written := written s;
     mapOutput := mapOutput s; sent := sent s |}.
Definition set_rdfCh (v : chan rec) (s : state) : state :=
  {| pc := pc s; i := i s; src := src s; rdfCh := v;
     postingsCh := postingsCh s; mappers := mappers s;
     writer_done := writer_done s; written := written s;
     mapOutput := mapOutput s; sent := sent s |}.
Definition set_postingsCh (v : chan Posting) (s : state) : state :=
  {| pc := pc s; i := i s; src := src s; rdfCh := rdfCh s;
     postingsCh := v; mappers := mappers s;
     writer_done := writer_done s; written := written s;
     mapOutput := mapOutput s; sent := sent s |}.
Definition set_mappers (v : list mapper) (s : state) : state :=
  {| pc := pc s; i := i s; src := src s; rdfCh := rdfCh s;
     postingsCh := postingsCh s; mappers := v;
     writer_done := writer_done s; written := written s;
     mapOutput := mapOutput s; sent := sent s |}.
(** One turn of the scan loop: the text is taken off the source and the
    counter goes up. *)
Definition scanned (r : rec) (rest : list string) (s : state) : state :=
  {| pc := pc s; i := S (i s); src := rest; rdfCh := rdfCh s;
     postingsCh := postingsCh s; mappers := mappers s;
     writer_done := writer_done s; written := written s;
     mapOutput := mapOutput s; sent := sent s ++ [r] |}.
Definition set_written (v : list Posting) (s : state) : state :=
  {| pc := pc s; i := i s; src := src s; rdfCh := rdfCh s;
     postingsCh := postingsCh s; mappers := mappers s;
     writer_done := writer_done s; written := v;
     mapOutput := mapOutput s; sent := sent s |}.
(** The spill writer's goroutine ends: [ld.mapOutput] is assigned and
    [postingWriterWg.Done()] is called. *)
Definition writer_returned (runs : list string) (s : state) : state :=
  {| pc := pc s; i := i s; src := src s; rdfCh := rdfCh s;
     postingsCh := postingsCh s; mappers := mappers s;
     writer_done := true; written := written s;
     mapOutput := runs; sent := sent s |}.

(** The state when the scan loop is entered: both channels empty, [W]
    mappers and the spill writer started. *)
Definition init : state :=
  {| pc := PScan; i := 0; src := lines; rdfCh := make; postingsCh := make;
     mappers := replicate W {| mpc := MRun []; seen := [] |};
     writer_done := false; written := []; mapOutput := []; sent := [] |}.

(** Lines 100 to 108 of [mapStage]. [mapperWg.Wait()] goes on when every
    mapper goroutine has called [Done], [postingWriterWg.Wait()] when the
    writer goroutine has. *)
Definition step_main (s : state) : option state :=
  match pc s with
  | PScan =>
      match src s with
      | line :: rest =>
          match send Loader.rdfCh_cap (i s, line) (rdfCh s) with
          | Sent c => Some (set_rdfCh c (scanned (i s, line) rest s))
          | SendBlocks => None
          | SendPanics => Some (set_pc PPanic s)
          end
      | [] => Some (set_pc PCheck s)
      end
  | PCheck =>
      if scanErr then Some (set_pc PFatal s) else Some (set_pc PCloseRdf s)
  | PCloseRdf => Some (set_pc PWaitMappers (set_rdfCh (close (rdfCh s)) s))
  | PWaitMappers =>
      if forallb exited (mappers s) then Some (set_pc PClosePostings s)
      else None
  | PClosePostings =>
      Some (set_pc PWaitWriter (set_postingsCh (close (postingsCh s)) s))
  | PWaitWriter =>
      if writer_done s then Some (set_pc PReturn s) else None
  | PReturn | PFatal | PPanic => None
  end.

(** Modelled from the spec: the body of [mapper.run] is not part of this
    file. Following section 4.2, a mapper dequeues one record (blocking on
    an empty input queue, ending when the queue is closed and empty), hands
    it to the record transformer, and enqueues each posting on the output
    queue (blocking while it is full). When [run] returns the goroutine
    calls [mapperWg.Done()]. *)
Definition step_mapper (k : nat) (s : state) : option state :=
  if negb (alive (pc s)) then None
  else
    m ← mappers s !! k;
    match mpc m with
    | MExit => None
    | MRun [] =>
        match recv (rdfCh s) with
        | Received r c =>
            Some (set_mappers
                    (<[k := {| mpc := MRun (parse r.2);
                               seen := seen m ++ [r] |}]> (mappers s))
                    (set_rdfCh c s))
        | RecvBlocks => None
        | RecvClosed =>
            Some (set_mappers
                    (<[k := {| mpc := MExit; seen := seen m |}]> (mappers s)) s)
        end
    | MRun (p :: ps) =>
        match send Loader.postingsCh_cap p (postingsCh s) with
        | Sent c =>
            Some (set_mappers
                    (<[k := {| mpc := MRun ps; seen := seen m |}]> (mappers s))
                    (set_postingsCh c s))
        | SendBlocks => None
        | SendPanics => Some (set_pc PPanic s)
        end
    end.

(** Modelled from the spec: [writeMapOutput] is not part of this file.
    Following section 4.3, the spill writer drains the output queue until
    it is closed and empty and then returns the list of run files; the
    goroutine of [mapStage] stores it in [ld.mapOutput] and calls
    [postingWriterWg.Done()]. *)
Definition step_writer (s : state) : option state :=
  if negb (alive (pc s)) then None
  else if writer_done s then None
  else
    match recv (postingsCh s) with
    | Received p c => Some (set_written (written s ++ [p]) (set_postingsCh c s))
    | RecvBlocks => None
    | RecvClosed => Some (writer_returned (runsOf (written s)) s)
    end.

(** One step of the goroutine [t]; [None] when it is blocked or has ended. *)
Definition step (t : thread) (s : state) : option state :=
  match t with
  | TMain => step_main s
  | TMapper k => step_mapper k s
  | TWriter => step_writer s
  end.

(** A schedule names the goroutine that moves at each step. *)
Fixpoint run (sched : list thread) (s : state) : option state :=
  match sched with
  | [] => Some s
  | t :: rest => s' ← step t s; run rest s'
  end.

Inductive reachable : state → Prop :=
  | reachable_init : reachable init
  | reachable_step s t s' : reachable s → step t s = Some s' → reachable s'.

Inductive steps : state → state → Prop :=
  | steps_refl s : steps s s
  | steps_step s t s' s'' : step t s = Some s' → steps s' s'' → steps s s''.

(** ** Observations on a state *)

(** The main goroutine is past [mapperWg.Wait()]. *)
Definition mappers_joined (p : main_pc) : bool :=
  match p with PClosePostings | PWaitWriter | PReturn => true | _ => false end.

Definition rdfCh_closed_at (p : main_pc) : bool :=
  match p with
  | PWaitMappers | PClosePostings | PWaitWriter | PReturn => true
  | _ => false
  end.

Definition postingsCh_closed_at (p : main_pc) : bool :=
  match p with PWaitWriter | PReturn => true | _ => false end.

(** All records the mapper pool has taken, mapper by mapper. *)
Definition observed (s : state) : list rec := concat (seen <$> mappers s).

(** ** A measure of the work left

    Each line still costs a send and a receive, each of its postings a send
    and a receive; each goroutine still has to end. *)
Definition cost_line (l : string) : nat := 2 + 2 * length (parse l).
Definition cost_rec (r : rec) : nat := 1 + 2 * length (parse r.2).
Definition cost_mapper (m : mapper) : nat :=
  match mpc m with MRun ps => 1 + 2 * length ps | MExit => 0 end.
Definition rank (p : main_pc) : nat :=
  match p with
  | PScan => 6 | PCheck => 5 | PCloseRdf => 4 | PWaitMappers => 3
  | PClosePostings => 2 | PWaitWriter => 1
  | PReturn | PFatal | PPanic => 0
  end.
Definition measure (s : state) : nat :=
  rank (pc s)
  + sum_list_with cost_line (src s)
  + sum_list_with cost_rec (buf (rdfCh s))
  + sum_list_with cost_mapper (mappers s)
  + length (buf (postingsCh s))
  + (if writer_done s then 0 else 1).

(** The main goroutine has left [mapStage], one way or the other. *)
Definition final (p : main_pc) : bool :=
  match p with PReturn | PFatal | PPanic => true | _ => false end.

(** ** Invariants *)

(** How the program counter, the two channels, the mappers and the writer
    hang together. *)
Record ctrl_inv (s : state) : Prop := {
  ci_width : length (mappers s) = W;
  ci_no_panic : pc s ≠ PPanic;
  ci_rdf : closed (rdfCh s) = rdfCh_closed_at (pc s);
  ci_postings : closed (postingsCh s) = postingsCh_closed_at (pc s);
  ci_exhausted : pc s ≠ PScan → src s = [];
  ci_checked : pc s = PCloseRdf ∨ rdfCh_closed_at (pc s) = true →
               scanErr = false;
  ci_exit : ∀ k m, mappers s !! k = Some m → exited m = true →
            closed (rdfCh s) = true ∧ buf (rdfCh s) = [];
  ci_joined : mappers_joined (pc s) = true →
              forallb exited (mappers s) = true;
  ci_writer : writer_done s = true →
              closed (postingsCh s) = true ∧ buf (postingsCh s) = [] ∧
              mapOutput s = runsOf (written s);
  ci_return : pc s = PReturn → writer_done s = true;
  ci_fatal : pc s = PFatal → scanErr = true
}.

(** Where every record is. *)
Record data_inv (s : state) : Prop := {
  di_count : i s = length (sent s);
  di_sent : sent s ++ number (i s) (src s) = number 0 lines;
  di_observed : observed s ++ buf (rdfCh s) ≡ₚ sent s
}.

(** Case analysis on one step of a goroutine. *)
Ltac step_cases H :=
  unfold step, step_main, step_mapper, step_writer, send, recv in H;
  repeat (simplify_option_eq; case_match);
  simplify_option_eq.

(** Closing a conjunct of the control invariant from the conjuncts that
    held before the step. *)
Ltac ctrl_close :=
  intros;
  repeat match goal with
         | H : _ ∨ _ |- _ => destruct H
         | H : _ ∧ _ |- _ => destruct H
         | H : ?P → _ |- _ =>
             let HP := fresh in
             assert (HP : P) by (done || (by left) || (by right));
             specialize (H HP); clear HP
         | H : ∀ k m, _ !! k = Some m → _, Hk : _ !! _ = Some _ |- _ =>
             let H' := fresh in
             pose proof (H _ _ Hk) as H'; clear Hk; simpl in H'
         end;
  try done; try congruence.

Lemma forallb_exited_lookup ms k m :
  forallb exited ms = true → ms !! k = Some m → exited m = true.
Proof.
  intros Hall Hk. rewrite forallb_forall in Hall. apply Hall.
  apply list_elem_of_In. by eapply list_elem_of_lookup_2.
Qed.

Lemma forallb_exited_insert ms k m :
  forallb exited ms = true → exited m = true →
  forallb exited (<[k := m]> ms) = true.
Proof.
  revert k. induction ms as [|m0 ms IH]; intros k; [done|].
  simpl. intros [H0 Hms]%andb_true_iff Hm. destruct k; simpl.
  - by rewrite Hm.
  - by rewrite H0, IH.
Qed.

Lemma ctrl_inv_init : ctrl_inv init.
Proof.
  split; simpl; try done.
  - apply length_replicate.
  - by intros [?|?].
  - intros k m [-> _]%lookup_replicate. done.
Qed.

Lemma ctrl_inv_step t s s' : ctrl_inv s → step t s = Some s' → ctrl_inv s'.
Proof.
  intros [] Hstep. destruct s. simpl in *. destruct t.
  - step_cases Hstep.
    all: split; simpl in *; try rewrite ?length_insert; try done.
    all: ctrl_close.
  - unfold step, step_mapper in Hstep. simpl in Hstep.
    destruct (negb (alive pc0)); [done|].
    destruct (mappers0 !! k) as [m|] eqn:Hk; simpl in Hstep; [|done].
    assert (Hrun : ∀ ps, mpc m = MRun ps → mappers_joined pc0 = false).
    { intros ps Hm. destruct (mappers_joined pc0) eqn:Hj; [|done].
      pose proof (forallb_exited_lookup _ _ _ (ci_joined0 eq_refl) Hk) as He.
      unfold exited in He. by rewrite Hm in He. }
    assert (Hexit : ∀ m0 k' m', exited m0 = false →
              <[k := m0]> mappers0 !! k' = Some m' → exited m' = true →
              mappers0 !! k' = Some m').
    { intros m0 k' m' Hm0 [(_ & <- & _)|[_ Hk']]%list_lookup_insert_Some He;
        [congruence|done]. }
    destruct (mpc m) as [[|p ps]|] eqn:Hm; [| |done].
    + unfold recv in Hstep. destruct (buf rdfCh0) as [|r rest] eqn:Hbuf.
      * (* the input queue is closed and empty *)
        destruct (closed rdfCh0) eqn:Hcl; [|done]. injection Hstep as <-.
        split; simpl in *; rewrite ?length_insert; try done; try congruence.
        intros Hj. apply forallb_exited_insert; [by apply ci_joined0|done].
      * (* a record is received *)
        injection Hstep as <-. pose proof (Hrun _ eq_refl) as Hj.
        split; simpl in *; rewrite ?length_insert; try done; try congruence.
        intros k' m' Hk' He. apply Hexit in Hk'; [|done..].
        by destruct (ci_exit0 _ _ Hk' He).
    + pose proof (Hrun _ eq_refl) as Hj.
      unfold send in Hstep. destruct (closed postingsCh0) eqn:Hcl.
      * (* a send on the closed output queue: excluded *)
        destruct pc0; done.
      * (* a posting is sent *)
        destruct (length (buf postingsCh0) <? Loader.postingsCh_cap);
          [|done].
        injection Hstep as <-.
        split; simpl in *; rewrite ?length_insert; try done; try congruence.
        -- intros k' m' Hk' He. apply Hexit in Hk'; [|done..]. eauto.
        -- intros Hw. destruct (ci_writer0 Hw). congruence.
  - step_cases Hstep.
    all: split; simpl in *; try done.
    all: ctrl_close.
Qed.

Lemma ctrl_inv_reachable s : reachable s → ctrl_inv s.
Proof.
  induction 1 as [|s t s' _ IH Hstep]; [apply ctrl_inv_init|].
  by eapply ctrl_inv_step.
Qed.

Lemma seen_insert_same (ms : list mapper) k m m' :
  ms !! k = Some m → seen m' = seen m →
  seen <$> <[k := m']> ms = seen <$> ms.
Proof.
  intros Hk Hs. rewrite list_fmap_insert, Hs.
  apply list_insert_id. by rewrite list_lookup_fmap, Hk.
Qed.

Lemma seen_insert_snoc (ms : list mapper) k m m' r :
  ms !! k = Some m → seen m' = seen m ++ [r] →
  concat (seen <$> <[k := m']> ms) ≡ₚ r :: concat (seen <$> ms).
Proof.
  revert k. induction ms as [|m0 ms IH]; intros k Hk Hs; [done|].
  destruct k as [|k]; simpl in *.
  - injection Hk as ->. rewrite Hs, <- app_assoc. simpl.
    by rewrite <- Permutation_middle.
  - rewrite (IH k Hk Hs). by rewrite <- Permutation_middle.
Qed.

Lemma data_inv_init : data_inv init.
Proof.
  split; simpl; try done. unfold observed. simpl.
  induction W as [|n IH]; simpl; [done|]. by rewrite app_nil_r in *.
Qed.

Lemma data_inv_step t s s' : data_inv s → step t s = Some s' → data_inv s'.
Proof.
  intros [Hc Hs Ho] Hstep. unfold observed in *. destruct s. simpl in *.
  destruct t.
  - step_cases Hstep; split; unfold observed; simpl in *; try done.
    + rewrite length_app. simpl. lia.
    + by rewrite <- app_assoc.
    + by rewrite app_assoc, Ho.
  - unfold step, step_mapper in Hstep. simpl in Hstep.
    destruct (negb (alive pc0)); [done|].
    destruct (mappers0 !! k) as [m|] eqn:Hk; simpl in Hstep; [|done].
    destruct (mpc m) as [[|p ps]|]; [| |done].
    + unfold recv in Hstep. destruct (buf rdfCh0) as [|r rest] eqn:Hbuf.
      * destruct (closed rdfCh0); [|done]. injection Hstep as <-.
        split; unfold observed; simpl; try done.
        by rewrite (seen_insert_same _ _ m), Hbuf.
      * injection Hstep as <-. split; unfold observed; simpl; try done.
        rewrite (seen_insert_snoc _ _ m _ r) by done.
        simpl. by rewrite Permutation_middle.
    + unfold send in Hstep. destruct (closed postingsCh0).
      * injection Hstep as <-. by split.
      * destruct (length (buf postingsCh0) <? Loader.postingsCh_cap);
          [|done].
        injection Hstep as <-. split; unfold observed; simpl; try done.
        by rewrite (seen_insert_same _ _ m).
  - step_cases Hstep; by split.
Qed.

Lemma data_inv_reachable s : reachable s → data_inv s.
Proof.
  induction 1 as [|s t s' _ IH Hstep]; [apply data_inv_init|].
  by eapply data_inv_step.
Qed.

Lemma number_length k l : length (number k l) = length l.
Proof. revert k. induction l as [|x l IH]; intros k; simpl; [done|]. by rewrite IH. Qed.

Lemma number_fst k l : (number k l).*1 = seq k (length l).
Proof. revert k. induction l as [|x l IH]; intros k; simpl; [done|]. by rewrite IH. Qed.

Lemma number_NoDup k l : NoDup (number k l).
Proof.
  eapply NoDup_fmap_1 with (f := fst). rewrite number_fst. apply NoDup_seq.
Qed.

Lemma number_lookup k l j x :
  number k l !! j = Some x ↔ ∃ line, l !! j = Some line ∧ x = (k + j, line).
Proof.
  revert k j. induction l as [|y l IH]; intros k j; simpl.
  - split; [done|]. by intros (? & ? & _).
  - destruct j as [|j]; simpl.
    + rewrite Nat.add_0_r. split.
      * intros [= <-]. eauto.
      * by intros (? & [= <-] & ->).
    + rewrite IH. by replace (S k + j) with (k + S j) by lia.
Qed.

(** ** Termination: every step uses up some of the measure *)

Lemma sum_insert {A} (f : A → nat) (l : list A) k x y :
  l !! k = Some x →
  sum_list_with f (<[k := y]> l) + f x = sum_list_with f l + f y.
Proof.
  revert k. induction l as [|z l IH]; intros k Hk; [done|].
  destruct k as [|k]; simpl in *.
  - injection Hk as ->. lia.
  - specialize (IH k Hk). lia.
Qed.

Lemma measure_step t s s' :
  ctrl_inv s → step t s = Some s' → measure s' < measure s.
Proof.
  intros Hinv Hstep.
  pose proof (ci_no_panic _ (ctrl_inv_step _ _ _ Hinv Hstep)) as Hnp.
  destruct Hinv. unfold measure. destruct s. simpl in *. destruct t.
  - step_cases Hstep; simpl in *; try done;
      rewrite ?sum_list_with_app; unfold cost_line, cost_rec;
      simpl; try lia.
  - unfold step, step_mapper in Hstep. simpl in Hstep.
    destruct (negb (alive pc0)); [done|].
    destruct (mappers0 !! k) as [m|] eqn:Hk; simpl in Hstep; [|done].
    destruct (mpc m) as [[|p ps]|] eqn:Hm; [| |done].
    + assert (Hcm : cost_mapper m = 1) by (unfold cost_mapper; by rewrite Hm).
      unfold recv in Hstep. destruct (buf rdfCh0) as [|r rest] eqn:Hbuf.
      * destruct (closed rdfCh0); [|done]. injection Hstep as <-. simpl.
        pose proof (sum_insert cost_mapper mappers0 k m
                      {| mpc := MExit; seen := seen m |} Hk) as Hs.
        change (cost_mapper {| mpc := MExit; seen := seen m |}) with 0 in Hs.
        rewrite Hbuf. simpl. lia.
      * injection Hstep as <-. simpl.
        pose proof (sum_insert cost_mapper mappers0 k m
                      {| mpc := MRun (parse r.2); seen := seen m ++ [r] |} Hk)
          as Hs.
        change (cost_mapper {| mpc := MRun (parse r.2);
                               seen := seen m ++ [r] |})
          with (1 + 2 * length (parse r.2)) in Hs.
        unfold cost_rec. lia.
    + assert (Hcm : cost_mapper m = 1 + 2 * length (p :: ps))
        by (unfold cost_mapper; by rewrite Hm).
      unfold send in Hstep. destruct (closed postingsCh0).
      * injection Hstep as <-. done.
      * destruct (length (buf postingsCh0) <? Loader.postingsCh_cap);
          [|done].
        injection Hstep as <-. simpl.
        pose proof (sum_insert cost_mapper mappers0 k m
                      {| mpc := MRun ps; seen := seen m |} Hk) as Hs.
        change (cost_mapper {| mpc := MRun ps; seen := seen m |})
          with (1 + 2 * length ps) in Hs.
        rewrite length_app. simpl in *. lia.
  - step_cases Hstep; simpl in *; lia.
Qed.

(** Every schedule is finite: at most [measure s] steps can be taken
    from a reachable state [s]. *)
Lemma run_bounded sched s s' :
  reachable s → run sched s = Some s' → length sched ≤ measure s.
Proof.
  revert s. induction sched as [|t sched IH]; intros s Hr Hrun; simpl in *.
  - lia.
  - destruct (step t s) as [s1|] eqn:Hstep; simpl in Hrun; [|done].
    pose proof (measure_step _ _ _ (ctrl_inv_reachable _ Hr) Hstep).
    assert (reachable s1) by (by eapply reachable_step).
    specialize (IH s1 ltac:(done) Hrun). lia.
Qed.

(** ** Progress: the stage cannot get stuck before it has returned *)

Lemma writer_can_move s :
  ctrl_inv s → alive (pc s) = true → writer_done s = false →
  (buf (postingsCh s) ≠ [] ∨ closed (postingsCh s) = true) →
  ∃ s', step TWriter s = Some s'.
Proof.
  intros Hinv Ha Hw Hq. unfold step, step_writer, recv. rewrite Ha, Hw. simpl.
  destruct (buf (postingsCh s)) as [|p rest]; [|by eauto].
  destruct Hq as [Hne|Hcl]; [done|rewrite Hcl; by eauto].
Qed.

Lemma pool_can_move s k m :
  ctrl_inv s → alive (pc s) = true →
  mappers s !! k = Some m → exited m = false →
  (buf (rdfCh s) ≠ [] ∨ closed (rdfCh s) = true) →
  ∃ t s', step t s = Some s'.
Proof.
  intros Hinv Ha Hk He Hq. unfold exited in He.
  destruct (mpc m) as [[|p ps]|] eqn:Hm; [| |done].
  - exists (TMapper k). unfold step, step_mapper, recv. rewrite Ha, Hk. simpl.
    rewrite Hm. destruct (buf (rdfCh s)) as [|r rest]; [|by eauto].
    destruct Hq as [Hne|Hcl]; [done|rewrite Hcl; by eauto].
  - destruct (closed (postingsCh s)) eqn:Hcl.
    { exists (TMapper k). unfold step, step_mapper, send.
      rewrite Ha, Hk. simpl. rewrite Hm, Hcl. eauto. }
    destruct (length (buf (postingsCh s)) <? Loader.postingsCh_cap) eqn:Hlen.
    { exists (TMapper k). unfold step, step_mapper, send.
      rewrite Ha, Hk. simpl. rewrite Hm, Hcl, Hlen. eauto. }
    exists TWriter. apply writer_can_move; try done.
    + destruct (writer_done s) eqn:Hw; [|done].
      destruct (ci_writer _ Hinv Hw). congruence.
    + left. intros Hnil. by rewrite Hnil in Hlen.
Qed.

Lemma not_all_exited ms :
  forallb exited ms = false → ∃ k m, ms !! k = Some m ∧ exited m = false.
Proof.
  induction ms as [|m ms IH]; simpl; [done|].
  destruct (exited m) eqn:He; simpl.
  - intros (k & m' & ? & ?)%IH. by exists (S k), m'.
  - intros _. by exists 0, m.
Qed.

Lemma progress s :
  0 < W → ctrl_inv s → final (pc s) = false → ∃ t s', step t s = Some s'.
Proof.
  intros HW Hinv Hf.
  destruct (pc s) eqn:Hpc; try done;
    assert (Ha : alive (pc s) = true) by (by rewrite Hpc).
  - (* the scan loop *)
    destruct (src s) as [|line rest] eqn:Hsrc.
    { exists TMain. unfold step, step_main. rewrite Hpc, Hsrc. eauto. }
    pose proof (ci_rdf _ Hinv) as Hcl. rewrite Hpc in Hcl. simpl in Hcl.
    destruct (length (buf (rdfCh s)) <? Loader.rdfCh_cap) eqn:Hlen.
    { exists TMain. unfold step, step_main, send.
      rewrite Hpc, Hsrc, Hcl, Hlen. eauto. }
    destruct (mappers s !! 0) as [m|] eqn:Hk.
    2: { apply lookup_ge_None in Hk. rewrite (ci_width _ Hinv) in Hk. lia. }
    apply (pool_can_move s 0 m); try done.
    + destruct (exited m) eqn:He; [|done].
      destruct (ci_exit _ Hinv _ _ Hk He). congruence.
    + left. intros Hnil. by rewrite Hnil in Hlen.
  - exists TMain. unfold step, step_main. rewrite Hpc.
    destruct scanErr; eauto.
  - exists TMain. unfold step, step_main. rewrite Hpc. eauto.
  - (* mapperWg.Wait() *)
    destruct (forallb exited (mappers s)) eqn:Hall.
    { exists TMain. unfold step, step_main. rewrite Hpc, Hall. eauto. }
    apply not_all_exited in Hall as (k & m & Hk & He).
    apply (pool_can_move s k m); try done.
    right. rewrite (ci_rdf _ Hinv), Hpc. done.
  - exists TMain. unfold step, step_main. rewrite Hpc. eauto.
  - (* postingWriterWg.Wait() *)
    destruct (writer_done s) eqn:Hw.
    { exists TMain. unfold step, step_main. rewrite Hpc, Hw. eauto. }
    exists TWriter. apply writer_can_move; try done.
    right. rewrite (ci_postings _ Hinv), Hpc. done.
Qed.

Lemma steps_reachable s s' : reachable s → steps s s' → reachable s'.
Proof.
  intros Hr Hs. induction Hs as [|s t s1 s2 Hstep _ IH]; [done|].
  apply IH. by eapply reachable_step.
Qed.

(** From every reachable state the stage can be run to its end, and it
    ends by returning unless the scanner reported an error. *)
Lemma can_complete s :
  0 < W → reachable s →
  ∃ s', steps s s' ∧
        (pc s' = PReturn ∨ (pc s' = PFatal ∧ scanErr = true)).
Proof.
  intros HW. remember (measure s) as n eqn:Hn. revert s Hn.
  induction n as [n IH] using lt_wf_ind. intros s -> Hr.
  pose proof (ctrl_inv_reachable _ Hr) as Hinv.
  destruct (final (pc s)) eqn:Hf.
  - exists s. split; [apply steps_refl|].
    destruct (pc s) eqn:Hpc; try done.
    + by left.
    + right. split; [done|]. by apply (ci_fatal _ Hinv).
    + by destruct (ci_no_panic _ Hinv).
  - destruct (progress s HW Hinv Hf) as (t & s1 & Hstep).
    destruct (IH (measure s1) (measure_step _ _ _ Hinv Hstep) s1 eq_refl)
      as (s' & Hsteps & Hend).
    { by eapply reachable_step. }
    exists s'. split; [|done]. by eapply steps_step.
Qed.

(** ** Each record is with one mapper only *)

Lemma elem_of_concat {A} (ls : list (list A)) x :
  x ∈ concat ls ↔ ∃ l, x ∈ l ∧ l ∈ ls.
Proof.
  induction ls as [|l0 ls IH]; simpl.
  - split; [by intros ?%elem_of_nil|]. by intros (? & _ & ?%elem_of_nil).
  - rewrite elem_of_app, IH. split.
    + intros [?|(l & ? & ?)]; [exists l0|exists l];
        (split; [done|]); [apply list_elem_of_here|by apply list_elem_of_further].
    + intros (l & Hx & [->|?]%elem_of_cons); [by left|right; eauto].
Qed.

Lemma concat_owner_unique {A} (ls : list (list A)) k k' l l' x :
  NoDup (concat ls) → ls !! k = Some l → ls !! k' = Some l' →
  x ∈ l → x ∈ l' → k = k'.
Proof.
  revert k k'. induction ls as [|l0 ls IH]; intros k k' Hnd Hk Hk' Hx Hx';
    [done|].
  simpl in Hnd. apply NoDup_app in Hnd as (_ & Hdisj & Hnd).
  assert (Hin : ∀ j lj, ls !! j = Some lj → x ∈ lj → x ∈ concat ls).
  { intros j lj Hj Hxj. apply elem_of_concat. exists lj.
    split; [done|]. by eapply list_elem_of_lookup_2. }
  destruct k as [|k], k' as [|k']; simpl in *; simplify_eq.
  - done.
  - exfalso. eapply Hdisj; eauto.
  - exfalso. eapply Hdisj; eauto.
  - f_equal. eauto.
Qed.

Lemma concat_owner {A} (ls : list (list A)) x :
  x ∈ concat ls → ∃ k l, ls !! k = Some l ∧ x ∈ l.
Proof.
  intros (l & Hx & Hl)%elem_of_concat.
  apply list_elem_of_lookup_1 in Hl as [k Hk]. eauto.
Qed.

Lemma map_run_reachable sched s s' :
  reachable s → run sched s = Some s' → reachable s'.
Proof.
  revert s. induction sched as [|t sched IH]; intros s Hr Hrun; simpl in *.
  - by injection Hrun as <-.
  - destruct (step t s) as [s1|] eqn:Hstep; simpl in Hrun; [|done].
    apply (IH s1); [|done]. by eapply reachable_step.
Qed.

(** Once the mappers are joined every record has been sent and taken. *)
Lemma joined_all_taken s :
  0 < W → reachable s → mappers_joined (pc s) = true →
  sent s = number 0 lines ∧ observed s ≡ₚ number 0 lines.
Proof.
  intros HW Hr Hj.
  pose proof (ctrl_inv_reachable _ Hr) as Hinv.
  destruct (data_inv_reachable _ Hr) as [_ Hs Ho].
  assert (Hsrc : src s = []).
  { apply (ci_exhausted _ Hinv). by destruct (pc s). }
  rewrite Hsrc in Hs. simpl in Hs. rewrite app_nil_r in Hs.
  split; [done|]. rewrite <- Hs, <- Ho.
  destruct (mappers s !! 0) as [m|] eqn:Hk.
  2: { apply lookup_ge_None in Hk. rewrite (ci_width _ Hinv) in Hk. lia. }
  pose proof (forallb_exited_lookup _ _ _ (ci_joined _ Hinv Hj) Hk) as He.
  destruct (ci_exit _ Hinv _ _ Hk He) as [_ ->]. by rewrite app_nil_r.
Qed.

(** C1. With a pool of at least one mapper: once the mappers are joined,
    the records sent on the input queue are exactly the lines of the
    source, each once and in order, and the records the mappers have taken
    are a permutation of them; each line is with exactly one mapper, once.
    The stage never gets stuck: from every reachable state it can be run to
    its end, where it has returned unless the scanner failed, and no
    schedule is longer than the measure of the work left. *)
Theorem records_delivered_exactly_once :
  0 < W →
  (∀ s, reachable s → mappers_joined (pc s) = true →
     sent s = number 0 lines ∧
     observed s ≡ₚ number 0 lines ∧
     NoDup (observed s) ∧
     length (observed s) = length lines ∧
     ∀ j line, lines !! j = Some line →
       ∃ k m, mappers s !! k = Some m ∧ (j, line) ∈ seen m ∧
              ∀ k' m', mappers s !! k' = Some m' → (j, line) ∈ seen m' →
                       k' = k)
  ∧ (∀ s, reachable s →
       ∃ s', steps s s' ∧
             (pc s' = PReturn ∨ (pc s' = PFatal ∧ scanErr = true)))
  ∧ (∀ s sched s', reachable s → run sched s = Some s' →
       length sched ≤ measure s).
Proof.
  intros HW. split; [|split].
  - intros s Hr Hj. destruct (joined_all_taken s HW Hr Hj) as [Hs Ho].
    assert (Hnd : NoDup (observed s)).
    { rewrite Ho. apply number_NoDup. }
    split; [done|]. split; [done|]. split; [done|]. split.
    { by rewrite Ho, number_length. }
    intros j line Hl.
    assert (Hin : (j, line) ∈ observed s).
    { rewrite Ho. apply list_elem_of_lookup. exists j.
      apply number_lookup. eauto. }
    apply concat_owner in Hin as (k & l & Hk & Hx).
    rewrite list_lookup_fmap in Hk.
    destruct (mappers s !! k) as [m|] eqn:Hm; [|done].
    injection Hk as <-. exists k, m. split; [done|]. split; [done|].
    intros k' m' Hm' Hx'.
    apply (concat_owner_unique (seen <$> mappers s) k' k (seen m') (seen m)
             (j, line)); [done| | |done|done].
    + by rewrite list_lookup_fmap, Hm'.
    + by rewrite list_lookup_fmap, Hm.
  - intros s Hr. by apply can_complete.
  - intros s sched s' Hr Hrun. by eapply run_bounded.
Qed.

(** The order in which the map stage shuts down, read off a state: the
    input queue is closed only with the source exhausted (and the scanner
    error checked); the output queue is closed only with the main goroutine
    past [mapperWg.Wait()] and every mapper ended; the writer ends only on
    a closed and drained output queue; and [mapStage] has returned only
    with the output queue closed, the writer ended and its run list in
    [ld.mapOutput]. *)
Definition shutdown_order (s : state) : Prop :=
  (closed (rdfCh s) = true → src s = [] ∧ scanErr = false) ∧
  (closed (postingsCh s) = true →
     mappers_joined (pc s) = true ∧ forallb exited (mappers s) = true) ∧
  (writer_done s = true →
     closed (postingsCh s) = true ∧ buf (postingsCh s) = []) ∧
  (pc s = PReturn →
     closed (postingsCh s) = true ∧ writer_done s = true ∧
     mapOutput s = runsOf (written s)).

Lemma reachable_shutdown_order s : reachable s → shutdown_order s.
Proof.
  intros Hr. destruct (ctrl_inv_reachable _ Hr).
  unfold shutdown_order. rewrite ci_rdf0, ci_postings0.
  split; [|split; [|split]].
  - intros Hcl. split.
    + apply ci_exhausted0. intros Hpc. by rewrite Hpc in Hcl.
    + apply ci_checked0. by right.
  - intros Hcl.
    assert (mappers_joined (pc s) = true) by (by destruct (pc s)). eauto.
  - intros Hw. destruct (ci_writer0 Hw) as (Hcl & ? & _).
    by rewrite ci_postings0 in Hcl.
  - intros Hpc. rewrite Hpc. split; [done|].
    pose proof (ci_return0 Hpc) as Hw. split; [done|].
    by destruct (ci_writer0 Hw) as (_ & _ & ?).
Qed.

(** ** The queues stay within their capacity *)

Definition within_caps (s : state) : Prop :=
  length (buf (rdfCh s)) ≤ Loader.rdfCh_cap ∧
  length (buf (postingsCh s)) ≤ Loader.postingsCh_cap.

Lemma within_caps_step t s s' :
  within_caps s → step t s = Some s' → within_caps s'.
Proof.
  intros [Hr Hp] Hstep. unfold within_caps. destruct s. simpl in *.
  destruct t; step_cases Hstep; simpl in *;
    repeat match goal with
           | H : (_ <? _) = true |- _ => apply Nat.ltb_lt in H
           | H : buf ?c = _ :: _ |- _ => rewrite H in *
           end;
    rewrite ?length_app; simpl in *; lia.
Qed.

Lemma within_caps_reachable s : reachable s → within_caps s.
Proof.
  induction 1 as [|s t s' _ IH Hstep].
  - split; simpl; lia.
  - by eapply within_caps_step.
Qed.

(** X12. Neither queue ever holds more than its capacity (1000 values
    each, as [newLoader] makes them), and with a full input queue the scan
    loop is blocked in its send: it reads the source no further until a
    mapper has taken a record. *)
Theorem queues_stay_within_capacity s :
  reachable s →
  length (buf (rdfCh s)) ≤ Loader.rdfCh_cap ∧
  length (buf (postingsCh s)) ≤ Loader.postingsCh_cap ∧
  (length (buf (rdfCh s)) = Loader.rdfCh_cap → src s ≠ [] →
   step TMain s = None).
Proof.
  intros Hr. destruct (within_caps_reachable _ Hr) as [H1 H2].
  split; [done|]. split; [done|]. intros Hfull Hsrc.
  pose proof (ctrl_inv_reachable _ Hr) as Hinv.
  assert (Hpc : pc s = PScan).
  { destruct (pc s) eqn:Hpc; try done;
      destruct Hsrc; apply (ci_exhausted _ Hinv); by rewrite Hpc. }
  pose proof (ci_rdf _ Hinv) as Hcl. rewrite Hpc in Hcl. simpl in Hcl.
  unfold step, step_main, send. rewrite Hpc, Hcl, Hfull.
  destruct (src s) as [|line rest]; [done|].
  by rewrite Nat.ltb_irrefl.
Qed.

(** X13. When the scanner reports an error, [x.Check] ends the process
    before anything is shut down: in no reachable state is a queue closed,
    has a mapper or the writer ended, or has [mapStage] returned; and with
    a pool of at least one mapper the stage can always be run on to the
    fatal exit. *)
Theorem scanner_error_is_fatal :
  scanErr = true →
  (∀ s, reachable s →
     closed (rdfCh s) = false ∧ closed (postingsCh s) = false ∧
     writer_done s = false ∧ pc s ≠ PReturn ∧
     ∀ k m, mappers s !! k = Some m → exited m = false) ∧
  (0 < W → ∀ s, reachable s → ∃ s', steps s s' ∧ pc s' = PFatal).
Proof.
  intros Herr. split.
  - intros s Hr. pose proof (ctrl_inv_reachable _ Hr) as Hinv.
    assert (Hat : rdfCh_closed_at (pc s) = false).
    { destruct (rdfCh_closed_at (pc s)) eqn:Hat; [|done].
      pose proof (ci_checked _ Hinv (or_intror Hat)). congruence. }
    assert (Hrdf : closed (rdfCh s) = false) by (by rewrite (ci_rdf _ Hinv)).
    assert (Hpost : closed (postingsCh s) = false).
    { rewrite (ci_postings _ Hinv). by destruct (pc s). }
    split; [done|]. split; [done|]. split; [|split].
    + destruct (writer_done s) eqn:Hw; [|done].
      destruct (ci_writer _ Hinv Hw). congruence.
    + intros Hpc. by rewrite Hpc in Hat.
    + intros k m Hk. destruct (exited m) eqn:He; [|done].
      destruct (ci_exit _ Hinv _ _ Hk He). congruence.
  - intros HW s Hr. destruct (can_complete s HW Hr) as (s' & Hs & Hend).
    exists s'. split; [done|]. destruct Hend as [Hret|[? _]]; [|done].
    pose proof (ctrl_inv_reachable _ (steps_reachable _ _ Hr Hs)) as Hinv.
    assert (scanErr = false); [|congruence].
    apply (ci_checked _ Hinv). right. by rewrite Hret.
Qed.

(** X14. The stage never sends on a closed channel, so it cannot panic:
    whenever the input queue is closed the scan loop is over, and whenever
    the output queue is closed every mapper has ended with nothing left in
    hand. *)
Theorem no_send_on_closed_channel s :
  reachable s →
  pc s ≠ PPanic ∧
  (∀ t s', step t s = Some s' → pc s' ≠ PPanic) ∧
  (closed (rdfCh s) = true → pc s ≠ PScan) ∧
  (closed (postingsCh s) = true →
   ∀ k m, mappers s !! k = Some m → mpc m = MExit).
Proof.
  intros Hr. pose proof (ctrl_inv_reachable _ Hr) as Hinv.
  split; [apply (ci_no_panic _ Hinv)|]. split; [|split].
  - intros t s' Hstep.
    apply (ci_no_panic s'), ctrl_inv_reachable. by eapply reachable_step.
  - rewrite (ci_rdf _ Hinv). intros Hcl Hpc. by rewrite Hpc in Hcl.
  - rewrite (ci_postings _ Hinv). intros Hcl k m Hk.
    assert (Hj : mappers_joined (pc s) = true) by (by destruct (pc s)).
    pose proof (forallb_exited_lookup _ _ _ (ci_joined _ Hinv Hj) Hk) as He.
    unfold exited in He. by destruct (mpc m).
Qed.

(** ** Where every posting is *)

(** The postings a mapper has made of its current record and not sent yet. *)
Definition in_hand (m : mapper) : list Posting :=
  match mpc m with MRun ps => ps | MExit => [] end.

(** What the record transformer makes of the records [rs], joined. *)
Definition postings_of (rs : list rec) : list Posting :=
  concat ((λ r, parse r.2) <$> rs).

Lemma postings_of_perm rs rs' :
  rs ≡ₚ rs' → postings_of rs ≡ₚ postings_of rs'.
Proof.
  unfold postings_of. induction 1 as [|r l l' _ IH|r r' l|l l' l'' _ IH _ IH'];
    simpl.
  - done.
  - by rewrite IH.
  - rewrite !app_assoc. f_equiv. apply Permutation_app_comm.
  - by rewrite IH.
Qed.

Lemma postings_of_number k l : postings_of (number k l) = concat (parse <$> l).
Proof.
  unfold postings_of. revert k.
  induction l as [|x l IH]; intros k; simpl; [done|]. by rewrite IH.
Qed.

Lemma concat_insert_perm {A B} (f : A → list B) ms k m m' :
  ms !! k = Some m →
  concat (f <$> <[k := m']> ms) ++ f m ≡ₚ concat (f <$> ms) ++ f m'.
Proof.
  revert k. induction ms as [|m0 ms IH]; intros k Hk; [done|].
  destruct k as [|k]; simpl in *.
  - injection Hk as ->. rewrite <- !app_assoc.
    etrans; [apply Permutation_app_comm|]. rewrite <- app_assoc.
    apply Permutation_app_swap_app.
  - rewrite <- !app_assoc. f_equiv. by apply IH.
Qed.

Definition post_inv (s : state) : Prop :=
  written s ++ buf (postingsCh s) ++ concat (in_hand <$> mappers s)
  ≡ₚ postings_of (observed s).

Lemma post_inv_init : post_inv init.
Proof.
  unfold post_inv, observed, postings_of. simpl.
  induction W as [|n IH]; simpl; done.
Qed.

Lemma post_inv_step t s s' : post_inv s → step t s = Some s' → post_inv s'.
Proof.
  unfold post_inv, observed. intros Hinv Hstep. destruct s. simpl in *.
  destruct t.
  - step_cases Hstep; simpl in *; done.
  - unfold step, step_mapper in Hstep. simpl in Hstep.
    destruct (negb (alive pc0)); [done|].
    destruct (mappers0 !! k) as [m|] eqn:Hk; simpl in Hstep; [|done].
    destruct (mpc m) as [[|p ps]|] eqn:Hm; [| |done].
    + unfold recv in Hstep. destruct (buf rdfCh0) as [|r rest] eqn:Hbuf.
      * destruct (closed rdfCh0); [|done]. injection Hstep as <-. simpl.
        rewrite (seen_insert_same _ _ m) by done.
        pose proof (concat_insert_perm in_hand mappers0 k m
                      {| mpc := MExit; seen := seen m |} Hk) as Hc.
        unfold in_hand at 2 4 in Hc. simpl in Hc. rewrite Hm in Hc.
        rewrite !app_nil_r in Hc. by rewrite Hc.
      * injection Hstep as <-. simpl.
        rewrite (postings_of_perm _ _
                   (seen_insert_snoc _ _ m
                      {| mpc := MRun (parse r.2); seen := seen m ++ [r] |}
                      r Hk eq_refl)).
        pose proof (concat_insert_perm in_hand mappers0 k m
                      {| mpc := MRun (parse r.2); seen := seen m ++ [r] |} Hk)
          as Hc.
        unfold in_hand at 2 4 in Hc. simpl in Hc. rewrite Hm in Hc.
        rewrite app_nil_r in Hc. rewrite Hc.
        unfold postings_of in *. simpl. rewrite <- Hinv.
        etrans; [|apply Permutation_app_comm]. by rewrite <- !app_assoc.
    + unfold send in Hstep. destruct (closed postingsCh0).
      * injection Hstep as <-. done.
      * destruct (length (buf postingsCh0) <? Loader.postingsCh_cap);
          [|done].
        injection Hstep as <-. simpl.
        rewrite (seen_insert_same _ _ m) by done. rewrite <- Hinv.
        pose proof (concat_insert_perm in_hand mappers0 k m
                      {| mpc := MRun ps; seen := seen m |} Hk) as Hc.
        unfold in_hand at 2 4 in Hc. simpl in Hc. rewrite Hm in Hc.
        f_equiv. rewrite <- app_assoc. f_equiv.
        apply (Permutation_app_inv_r ps). rewrite <- app_assoc. simpl.
        rewrite <- Hc. apply Permutation_middle.
  - step_cases Hstep; simpl in *; try done.
    rewrite <- Hinv. by rewrite <- !app_assoc.
Qed.

Lemma post_inv_reachable s : reachable s → post_inv s.
Proof.
  induction 1 as [|s t s' _ IH Hstep]; [apply post_inv_init|].
  by eapply post_inv_step.
Qed.

Lemma in_hand_exited ms :
  forallb exited ms = true → concat (in_hand <$> ms) = [].
Proof.
  induction ms as [|m ms IH]; simpl; [done|].
  intros [He Hall]%andb_prop. specialize (IH Hall). unfold fmap in IH.
  rewrite IH. unfold exited in He. unfold in_hand. by destruct (mpc m).
Qed.

(** X15. No posting is lost or made twice between the mappers and the
    writer (as the spec describes them): with a pool of at least one
    mapper, when [mapStage] has returned both queues are empty, the
    postings the writer has drained are, up to order, those the record
    transformer makes of the lines of the source, and [ld.mapOutput] is the
    run list the writer reported for them. *)
Theorem postings_all_written s :
  0 < W → reachable s → pc s = PReturn →
  buf (rdfCh s) = [] ∧ buf (postingsCh s) = [] ∧
  written s ≡ₚ concat (parse <$> lines) ∧
  mapOutput s = runsOf (written s).
Proof.
  intros HW Hr Hpc.
  pose proof (ctrl_inv_reachable _ Hr) as Hinv.
  pose proof (post_inv_reachable _ Hr) as Hpost. unfold post_inv in Hpost.
  assert (Hj : mappers_joined (pc s) = true) by (by rewrite Hpc).
  destruct (joined_all_taken s HW Hr Hj) as [_ Ho].
  destruct (ci_writer _ Hinv (ci_return _ Hinv Hpc)) as (_ & Hbuf & Hout).
  pose proof (ci_joined _ Hinv Hj) as Hall.
  rewrite Hbuf, (in_hand_exited _ Hall), !app_nil_r in Hpost.
  split; [|split; [done|split; [|done]]].
  - destruct (mappers s !! 0) as [m|] eqn:Hk.
    2: { apply lookup_ge_None in Hk. rewrite (ci_width _ Hinv) in Hk. lia. }
    pose proof (forallb_exited_lookup _ _ _ Hall Hk) as He.
    by destruct (ci_exit _ Hinv _ _ Hk He).
  - by rewrite Hpost, (postings_of_perm _ _ Ho), postings_of_number.
Qed.

End Stage.

(** ** A run of the stage on two lines with two mappers *)

Definition demo_parse (line : string) : list string := [line +:+ "!"].
Definition demo_runsOf (ps : list string) : list string :=
  match ps with [] => [] | _ => ["tmp/bulkloader_tmp_posting_042/000000"] end.
Definition demo_sched : list thread :=
  [ TMain; TMain; TMain; TMain; TMain;
    TMapper 0; TMapper 1; TMapper 0; TWriter; TMapper 1;
    TMapper 0; TMapper 1; TMain; TMain;
    TWriter; TWriter; TMain ].
Definition demo_init : state string :=
  init string 2 ["<a> <name> <b> ."; "<b> <name> <c> ."].
Definition demo_final : state string :=
  default demo_init (run string demo_parse demo_runsOf false demo_sched demo_init).

Lemma demo_run :
  run string demo_parse demo_runsOf false demo_sched demo_init
  = Some demo_final
  ∧ pc string demo_final = PReturn
  ∧ seen string <$> mappers string demo_final
    = [ [(0, "<a> <name> <b> .")]; [(1, "<b> <name> <c> .")] ]
  ∧ written string demo_final = ["<a> <name> <b> .!"; "<b> <name> <c> .!"]
  ∧ mapOutput string demo_final = ["tmp/bulkloader_tmp_posting_042/000000"].
Proof. vm_compute. done. Qed.

(** A pool of width 0 is why the width must be positive: [mapStage]
    returns with the record still in the input queue. *)
Definition empty_pool_sched : list thread :=
  [ TMain; TMain; TMain; TMain; TMain; TMain; TWriter; TMain ].
Definition empty_pool_end : state string :=
  default (init string 0 ["<a> <name> <b> ."])
    (run string demo_parse demo_runsOf false empty_pool_sched
       (init string 0 ["<a> <name> <b> ."])).

Lemma empty_pool_takes_nothing :
  run string demo_parse demo_runsOf false empty_pool_sched
    (init string 0 ["<a> <name> <b> ."]) = Some empty_pool_end
  ∧ pc string empty_pool_end = PReturn
  ∧ observed string empty_pool_end = []
  ∧ Channel.buf (rdfCh string empty_pool_end) = [(0, "<a> <name> <b> .")].
Proof. vm_compute. done. Qed.

Lemma records_delivered_exactly_once_witness :
  sent string demo_final
  = number 0 ["<a> <name> <b> ."; "<b> <name> <c> ."]
  ∧ observed string demo_final
    ≡ₚ number 0 ["<a> <name> <b> ."; "<b> <name> <c> ."].
Proof.
  destruct (records_delivered_exactly_once string demo_parse demo_runsOf 2
              ["<a> <name> <b> ."; "<b> <name> <c> ."] false
              ltac:(lia)) as [H _].
  destruct (H demo_final) as (Hs & Ho & _).
  - apply (map_run_reachable string demo_parse demo_runsOf 2 _ false demo_sched
             demo_init); [apply reachable_init|].
    vm_compute. reflexivity.
  - vm_compute. reflexivity.
  - split; [exact Hs|exact Ho].
Defined.

(** ** A scan that fails, and a full input queue *)

Definition failing_scan_sched : list thread := [TMain; TMain; TMain; TMain].
Definition failing_scan_end : state string :=
  default demo_init
    (run string demo_parse demo_runsOf true failing_scan_sched demo_init).

Definition full_lines : list string :=
  replicate (S Loader.rdfCh_cap) "<a> <name> <b> .".
Definition full_sched : list thread := replicate Loader.rdfCh_cap TMain.
Definition full_queue : state string :=
  default (init string 1 full_lines)
    (run string demo_parse demo_runsOf false full_sched
       (init string 1 full_lines)).

Lemma queues_stay_within_capacity_witness :
  length (Channel.buf (rdfCh string full_queue)) = Loader.rdfCh_cap
  ∧ step string demo_parse demo_runsOf false TMain full_queue = None.
Proof.
  destruct (queues_stay_within_capacity string demo_parse demo_runsOf 1
              full_lines false full_queue) as (_ & _ & H).
  - apply (map_run_reachable string demo_parse demo_runsOf 1 _ false
             full_sched (init string 1 full_lines)); [apply reachable_init|].
    vm_compute. reflexivity.
  - split; [vm_compute; reflexivity|]. apply H; [vm_compute; reflexivity|].
    intros Hnil. vm_compute in Hnil. discriminate Hnil.
Defined.

Lemma scanner_error_is_fatal_witness :
  pc string failing_scan_end = PFatal
  ∧ Channel.closed (rdfCh string failing_scan_end) = false
  ∧ writer_done string failing_scan_end = false.
Proof.
  destruct (scanner_error_is_fatal string demo_parse demo_runsOf 2
              ["<a> <name> <b> ."; "<b> <name> <c> ."] true eq_refl)
    as [H _].
  destruct (H failing_scan_end) as (H1 & _ & H3 & _).
  - apply (map_run_reachable string demo_parse demo_runsOf 2 _ true
             failing_scan_sched demo_init); [apply reachable_init|].
    vm_compute. reflexivity.
  - split; [vm_compute; reflexivity|]. split; [exact H1|exact H3].
Defined.

Lemma no_send_on_closed_channel_witness :
  pc string demo_final ≠ PPanic
  ∧ ∀ k m, mappers string demo_final !! k = Some m → mpc string m = MExit string.
Proof.
  destruct (no_send_on_closed_channel string demo_parse demo_runsOf 2
              ["<a> <name> <b> ."; "<b> <name> <c> ."] false demo_final)
    as (H1 & _ & _ & H4).
  - apply (map_run_reachable string demo_parse demo_runsOf 2 _ false demo_sched
             demo_init); [apply reachable_init|].
    vm_compute. reflexivity.
  - split; [exact H1|]. apply H4. vm_compute. reflexivity.
Defined.

Lemma postings_all_written_witness :
  written string demo_final ≡ₚ ["<a> <name> <b> .!"; "<b> <name> <c> .!"]
  ∧ mapOutput string demo_final
    = demo_runsOf (written string demo_final).
Proof.
  destruct (postings_all_written string demo_parse demo_runsOf 2
              ["<a> <name> <b> ."; "<b> <name> <c> ."] false demo_final
              ltac:(lia)) as (_ & _ & Hw & Ho).
  - apply (map_run_reachable string demo_parse demo_runsOf 2 _ false demo_sched
             demo_init); [apply reachable_init|].
    vm_compute. reflexivity.
  - vm_compute. reflexivity.
  - split; [exact Hw|exact Ho].
Defined.

End MapStage.

(* ===================================================================== *)
(** * The reduce stage as a transition system *)
(* ===================================================================== *)

Module ReduceStage.
Import Channel.

(** Where the main goroutine stands in [reduceStage], from the loop over
    [reduceCh] on. *)
Inductive main_pc :=
  | RRecv      (* for batch := range reduceCh *)
  | RAcquire   (* pending <- struct{}{} *)
  | RSpawn     (* reduceWg.Add(1); go func() {...}() *)
  | RWait      (* reduceWg.Wait() *)
  | RReturn.   (* ld.prog.endSummary() done, reduceStage has returned *)

Inductive thread := TMain | TMerger | TWorker (k : nat).

Section Stage.

(** The collaborators: the batches the merger is going to emit, and whether
    the aggregator [reduce] returns on a batch (it has no error result; the
    other way out of the call is a panic). *)
Variable Batch : Type.
Variable batches : list Batch.
Variable reduce_returns : Batch → bool.

(** [ld.opt.numGoroutines], the capacity of [pending]. *)
Variable W : nat.

(** A reducer goroutine [func() { reduce(batch, ld.prog); <-pending;
    reduceWg.Done() }]. *)
Inductive worker_pc :=
  | WStart                 (* started, [reduce] not yet called *)
  | WReducing (b : Batch)  (* inside [reduce(b, ld.prog)] *)
  | WRelease               (* [reduce] has returned, before [<-pending] *)
  | WDone                  (* token given back, before [reduceWg.Done()] *)
  | WExit                  (* the goroutine has ended *)
  | WFailed (b : Batch).   (* [reduce(b, ld.prog)] panicked *)

Definition holds_token (w : worker_pc) : bool :=
  match w with
  | WStart | WReducing _ | WRelease | WFailed _ => true
  | WDone | WExit => false
  end.

Definition is_active (w : worker_pc) : bool :=
  match w with WReducing _ => true | _ => false end.

Definition is_exit (w : worker_pc) : bool :=
  match w with WExit => true | _ => false end.

Definition count (f : worker_pc → bool) (ws : list worker_pc) : nat :=
  sum_list_with (λ w, if f w then 1 else 0) ws.

Record state := {
  dead : bool;                (* a goroutine panicked: the process is gone *)
  pc : main_pc;
  merger : list Batch;        (* what the merger has still to emit *)
  reduceCh : chan Batch;
  batch : option Batch;       (* the loop variable [batch] *)
  pending : nat;              (* len(pending): the tokens that are out *)
  workers : list worker_pc;
  emitted : nat;              (* batches the merger has sent so far *)
  received : nat              (* batches the loop has received so far *)
}.

Definition with_pc (v : main_pc) (s : state) : state :=
  {| dead := dead s; pc := v; merger := merger s; reduceCh := reduceCh s; batch := batch s;
     pending := pending s; workers := workers s; emitted := emitted s;
     received := received s |}.
Definition with_pending (v : nat) (s : state) : state :=
  {| dead := dead s; pc := pc s; merger := merger s; reduceCh := reduceCh s; batch := batch s;
     pending := v; workers := workers s; emitted := emitted s;
     received := received s |}.
Definition with_workers (v : list worker_pc) (s : state) : state :=
  {| dead := dead s; pc := pc s; merger := merger s; reduceCh := reduceCh s; batch := batch s;
     pending := pending s; workers := v; emitted := emitted s;
     received := received s |}.
Definition with_reduceCh (v : chan Batch) (s : state) : state :=
  {| dead := dead s; pc := pc s; merger := merger s; reduceCh := v; batch := batch s;
     pending := pending s; workers := workers s; emitted := emitted s;
     received := received s |}.
(** The loop receives [b]: it becomes the value of the loop variable. *)
Definition with_batch (b : Batch) (s : state) : state :=
  {| dead := dead s; pc := pc s; merger := merger s; reduceCh := reduceCh s; batch := Some b;
     pending := pending s; workers := workers s; emitted := emitted s;
     received := S (received s) |}.
(** The merger has sent one more batch. *)
Definition with_merger (rest : list Batch) (s : state) : state :=
  {| dead := dead s; pc := pc s; merger := rest; reduceCh := reduceCh s; batch := batch s;
     pending := pending s; workers := workers s; emitted := S (emitted s);
     received := received s |}.

(** The state when the loop over [reduceCh] is entered: [reduceCh] made
    with capacity 3, [pending] with capacity [W], the merger started. *)
Definition init : state :=
  {| dead := false; pc := RRecv; merger := batches; reduceCh := make; batch := None;
     pending := 0; workers := []; emitted := 0; received := 0 |}.

(** An unrecovered panic in any goroutine ends the process. *)
Definition crash (s : state) : state :=
  {| dead := true; pc := pc s; merger := merger s; reduceCh := reduceCh s;
     batch := batch s; pending := pending s; workers := workers s;
     emitted := emitted s; received := received s |}.

(** Lines 126 to 137 of [reduceStage]. *)
Definition step_main (s : state) : option state :=
  if dead s then None
  else
  match pc s with
  | RRecv =>
      match recv (reduceCh s) with
      | Received b c => Some (with_pc RAcquire (with_reduceCh c (with_batch b s)))
      | RecvBlocks => None
      | RecvClosed => Some (with_pc RWait s)
      end
  | RAcquire =>
      if pending s <? W then Some (with_pc RSpawn (with_pending (S (pending s)) s))
      else None
  | RSpawn => Some (with_pc RRecv (with_workers (workers s ++ [WStart]) s))
  | RWait =>
      if forallb is_exit (workers s) then Some (with_pc RReturn s) else None
  | RReturn => None
  end.

(** Lines 129 to 133: the goroutine reads the loop variable when it calls
    [reduce]; [<-pending] takes a token out of the buffer, or, on a channel
    of capacity 0, meets the main goroutine blocked in its send. *)
Definition step_worker (k : nat) (s : state) : option state :=
  if dead s then None
  else
    w ← workers s !! k;
    match w with
    | WStart =>
        b ← batch s; Some (with_workers (<[k := WReducing b]> (workers s)) s)
    | WReducing b =>
        if reduce_returns b then
          Some (with_workers (<[k := WRelease]> (workers s)) s)
        else
          Some (crash (with_workers (<[k := WFailed b]> (workers s)) s))
    | WRelease =>
        if 0 <? pending s then
          Some (with_pending (pending s - 1)
                  (with_workers (<[k := WDone]> (workers s)) s))
        else
          match W, pc s with
          | 0, RAcquire =>
              Some (with_pc RSpawn (with_workers (<[k := WDone]> (workers s)) s))
          | _, _ => None
          end
    | WDone => Some (with_workers (<[k := WExit]> (workers s)) s)
    | WExit | WFailed _ => None
    end.

(** Modelled from the spec: [shufflePostings] is not part of this file.
    Following section 4.4, the merger emits its batches one by one on the
    batch queue (blocking while it is full) and closes the queue after the
    last one, which ends the loop of [reduceStage]. *)
Definition step_merger (s : state) : option state :=
  if dead s then None
  else
    match merger s with
    | b :: rest =>
        match send Loader.reduceCh_cap b (reduceCh s) with
        | Sent c => Some (with_reduceCh c (with_merger rest s))
        | SendBlocks => None
        | SendPanics => Some (crash s)
        end
    | [] =>
        if closed (reduceCh s) then None
        else Some (with_reduceCh (close (reduceCh s)) s)
    end.

Definition step (t : thread) (s : state) : option state :=
  match t with
  | TMain => step_main s
  | TMerger => step_merger s
  | TWorker k => step_worker k s
  end.

Fixpoint run (sched : list thread) (s : state) : option state :=
  match sched with
  | [] => Some s
  | t :: rest => s' ← step t s; run rest s'
  end.

Inductive reachable : state → Prop :=
  | reachable_init : reachable init
  | reachable_step s t s' : reachable s → step t s = Some s' → reachable s'.

(** No goroutine can move. *)
Definition stuck (s : state) : Prop := ∀ t, step t s = None.

(** ** Observations on a state *)

(** The tokens of the limiter that are out, and the calls of [reduce] that
    are running. *)
Definition outstanding (s : state) : nat := pending s.
Definition active (s : state) : nat := count is_active (workers s).

(** A measure of the work left: a batch costs eight steps from the merger
    to the end of its reducer goroutine. *)
Definition worker_rank (w : worker_pc) : nat :=
  match w with
  | WStart => 4 | WReducing _ => 3 | WRelease => 2 | WDone => 1
  | WExit | WFailed _ => 0
  end.
Definition main_rank (p : main_pc) : nat :=
  match p with
  | RRecv => 2 | RAcquire => 8 | RSpawn => 7 | RWait => 1 | RReturn => 0
  end.
Definition measure (s : state) : nat :=
  8 * length (merger s)
  + (if closed (reduceCh s) then 0 else 1)
  + 7 * length (buf (reduceCh s))
  + main_rank (pc s)
  + sum_list_with worker_rank (workers s)
  + (if dead s then 0 else 1).

Inductive steps : state → state → Prop :=
  | steps_refl s : steps s s
  | steps_step s t s' s'' : step t s = Some s' → steps s' s'' → steps s s''.

(** The loop variable has a value once the loop has received a batch. *)
Definition batch_inv (s : state) : Prop :=
  pc s = RAcquire ∨ pc s = RSpawn ∨ workers s ≠ [] → is_Some (batch s).

(** The calls of [reduce] that have returned. *)
Definition reduce_done (w : worker_pc) : bool :=
  match w with WRelease | WDone | WExit => true | _ => false end.
Definition finished (s : state) : nat := count reduce_done (workers s).

(** Every batch the loop has received is with a reducer goroutine, but for
    the one the loop is dispatching. *)
Definition dispatch_inv (s : state) : Prop :=
  received s
  = length (workers s)
    + (match pc s with RAcquire | RSpawn => 1 | _ => 0 end).

(** How the tokens are accounted for. *)
Record token_inv (s : state) : Prop := {
  ti_holders : pending s
               = count holds_token (workers s)
                 + (match pc s with RSpawn => 1 | _ => 0 end);
  ti_bound : pending s ≤ W;
  ti_return : pc s = RReturn → forallb is_exit (workers s) = true;
  ti_failed : ∀ k b, workers s !! k = Some (WFailed b) →
              dead s = true ∧ reduce_returns b = false
}.

(** How far the merger is ahead of the loop. *)
Record queue_inv (s : state) : Prop := {
  qi_cap : length (buf (reduceCh s)) ≤ Loader.reduceCh_cap;
  qi_flow : emitted s = received s + length (buf (reduceCh s));
  qi_total : emitted s + length (merger s) = length batches;
  qi_open : merger s ≠ [] → closed (reduceCh s) = false
}.

(** ** Counting workers *)

Lemma count_insert f (ws : list worker_pc) k w w' :
  ws !! k = Some w →
  count f (<[k := w']> ws) + (if f w then 1 else 0)
  = count f ws + (if f w' then 1 else 0).
Proof.
  intros Hk. unfold count.
  exact (MapStage.sum_insert (λ w, if f w then 1 else 0) ws k w w' Hk).
Qed.

Lemma count_snoc f (ws : list worker_pc) w :
  count f (ws ++ [w]) = count f ws + (if f w then 1 else 0).
Proof. unfold count. rewrite sum_list_with_app. simpl. lia. Qed.

Lemma count_member f (ws : list worker_pc) k w :
  ws !! k = Some w → f w = true → 1 ≤ count f ws.
Proof.
  intros Hk Hf. unfold count.
  pose proof (sum_list_with_in w (λ w, if f w then 1 else 0) ws) as H.
  simpl in H. rewrite Hf in H. apply H. by eapply list_elem_of_lookup_2.
Qed.

Lemma active_le_holders (ws : list worker_pc) :
  count is_active ws ≤ count holds_token ws.
Proof.
  unfold count. induction ws as [|w ws IH]; simpl; [done|].
  destruct w; simpl; lia.
Qed.

Lemma all_exit_no_holder (ws : list worker_pc) :
  forallb is_exit ws = true → count holds_token ws = 0.
Proof.
  unfold count. induction ws as [|w ws IH]; simpl; [done|].
  intros [Hw Hws]%andb_true_iff. rewrite (IH Hws). by destruct w.
Qed.

Lemma all_exit_lookup (ws : list worker_pc) k w :
  forallb is_exit ws = true → ws !! k = Some w → w = WExit.
Proof.
  intros Hall Hk. rewrite forallb_forall in Hall.
  assert (Hin : In w ws).
  { apply list_elem_of_In. by eapply list_elem_of_lookup_2. }
  apply Hall in Hin. by destruct w.
Qed.

(** ** The token invariant *)

Lemma token_inv_init : token_inv init.
Proof. split; simpl; [done|lia|done|done]. Qed.

Lemma token_inv_step t s s' : token_inv s → step t s = Some s' → token_inv s'.
Proof.
  intros [Hh Hb Hr Hfl] Hstep. destruct s. simpl in *.
  assert (Hlive : dead0 = false).
  { destruct dead0; [|done]. by destruct t. }
  subst dead0.
  assert (Hnf : ∀ k b, workers0 !! k ≠ Some (WFailed b)).
  { intros k b Hk. by destruct (Hfl _ _ Hk). }
  assert (Hins : ∀ k w k' b, (∀ b', w ≠ WFailed b') →
            <[k := w]> workers0 !! k' = Some (WFailed b) → False).
  { intros k w k' b Hw [(_ & ? & _)|[_ Hk']]%list_lookup_insert_Some.
    - by eapply Hw.
    - by eapply Hnf. }
  destruct t.
  - (* the main goroutine *)
    unfold step, step_main in Hstep. simpl in Hstep.
    destruct pc0; simpl in *.
    + unfold recv in Hstep. destruct (buf reduceCh0).
      * destruct (closed reduceCh0); [|done]. injection Hstep as <-.
        split; simpl; [lia|done|done|done].
      * injection Hstep as <-. split; simpl; [lia|done|done|done].
    + destruct (Nat.ltb_spec pending0 W); [|done]. injection Hstep as <-.
      split; simpl; [lia|lia|done|done].
    + injection Hstep as <-. split; simpl; [|done|done|].
      * rewrite count_snoc. simpl. lia.
      * intros k b [Hk|[_ Hk]]%lookup_app_Some; [by destruct (Hnf _ _ Hk)|].
        by destruct (k - length workers0).
    + destruct (forallb is_exit workers0) eqn:Hall; [|done].
      injection Hstep as <-. split; simpl; [lia|done|done|done].
    + done.
  - (* the merger *)
    unfold step, step_merger, send in Hstep. simpl in Hstep.
    destruct merger0.
    + destruct (closed reduceCh0); [done|]. injection Hstep as <-.
      by split.
    + destruct (closed reduceCh0).
      * injection Hstep as <-. split; simpl; try done.
        intros k' b' Hk'. by destruct (Hnf _ _ Hk').
      * destruct (length (buf reduceCh0) <? Loader.reduceCh_cap); [|done].
        injection Hstep as <-. by split.
  - (* a reducer goroutine *)
    unfold step, step_worker in Hstep. simpl in Hstep.
    destruct (workers0 !! k) as [w|] eqn:Hk; simpl in Hstep; [|done].
    assert (Hnr : pc0 = RReturn → w = WExit).
    { intros He. eapply all_exit_lookup; [by apply Hr|done]. }
    destruct w.
    + destruct batch0 as [b|]; simpl in Hstep; [|done].
      injection Hstep as <-.
      pose proof (count_insert holds_token _ _ _ (WReducing b) Hk) as Hc.
      simpl in Hc. split; simpl; [lia|done| |].
      * intros He. by specialize (Hnr He).
      * intros k' b' Hk'. exfalso. by eapply Hins; [|exact Hk'].
    + pose proof (count_insert holds_token _ _ _ WRelease Hk) as Hc1.
      pose proof (count_insert holds_token _ _ _ (WFailed b) Hk) as Hc2.
      simpl in Hc1, Hc2.
      destruct (reduce_returns b) eqn:Hret; injection Hstep as <-.
      * split; simpl; [lia|done| |].
        -- intros He. by specialize (Hnr He).
        -- intros k' b' Hk'. exfalso. by eapply Hins; [|exact Hk'].
      * split; simpl; [lia|done| |].
        -- intros He. by specialize (Hnr He).
        -- intros k' b' [(_ & [= <-] & _)|[_ Hk']]%list_lookup_insert_Some;
             [done|]. by destruct (Hnf _ _ Hk').
    + pose proof (count_insert holds_token _ _ _ WDone Hk) as Hc.
      pose proof (count_member holds_token _ _ _ Hk eq_refl) as Hm.
      simpl in Hc.
      destruct (Nat.ltb_spec 0 pending0).
      * injection Hstep as <-. split; simpl; [lia|lia| |].
        -- intros He. by specialize (Hnr He).
        -- intros k' b' Hk'. exfalso. by eapply Hins; [|exact Hk'].
      * exfalso. lia.
    + injection Hstep as <-.
      pose proof (count_insert holds_token _ _ _ WExit Hk) as Hc.
      simpl in Hc. split; simpl; [lia|done| |].
      * intros He. by specialize (Hnr He).
      * intros k' b' Hk'. exfalso. by eapply Hins; [|exact Hk'].
    + done.
    + done.
Qed.

Lemma token_inv_reachable s : reachable s → token_inv s.
Proof.
  induction 1 as [|s t s' _ IH Hstep]; [apply token_inv_init|].
  by eapply token_inv_step.
Qed.

(** ** The queue invariant *)

Lemma queue_inv_init : queue_inv init.
Proof. split; simpl; try done. unfold Loader.reduceCh_cap. lia. Qed.

Lemma queue_inv_step t s s' : queue_inv s → step t s = Some s' → queue_inv s'.
Proof.
  intros [Hc Hf Ht Ho] Hstep. destruct s. simpl in *.
  assert (Hkeep : ∀ d p b n ws,
    queue_inv {| dead := d; pc := p; merger := merger0;
                 reduceCh := reduceCh0; batch := b; pending := n;
                 workers := ws; emitted := emitted0;
                 received := received0 |}) by (by split).
  destruct t.
  - unfold step, step_main in Hstep. simpl in Hstep.
    destruct dead0; [done|].
    destruct pc0; simpl in *.
    + unfold recv in Hstep. destruct (buf reduceCh0) eqn:Hbuf.
      * destruct (closed reduceCh0) eqn:Hcl; [|done]. injection Hstep as <-.
        apply Hkeep.
      * injection Hstep as <-. simpl in *. split; simpl; try done; lia.
    + destruct (pending0 <? W); [|done]. injection Hstep as <-. apply Hkeep.
    + injection Hstep as <-. apply Hkeep.
    + destruct (forallb is_exit workers0); [|done].
      injection Hstep as <-. apply Hkeep.
    + done.
  - unfold step, step_merger, send in Hstep. simpl in Hstep.
    destruct dead0; [done|].
    destruct merger0 as [|b rest].
    + destruct (closed reduceCh0) eqn:Hcl; [done|]. injection Hstep as <-.
      by split.
    + rewrite Ho in Hstep by done.
      destruct (Nat.ltb_spec (length (buf reduceCh0)) Loader.reduceCh_cap);
        [|done].
      injection Hstep as <-.
      split; simpl in *; rewrite ?length_app; simpl; try done; lia.
  - unfold step, step_worker in Hstep. simpl in Hstep.
    destruct dead0; [done|].
    destruct (workers0 !! k) as [w|]; simpl in Hstep; [|done].
    destruct w.
    + destruct batch0; simpl in Hstep; [|done]. injection Hstep as <-.
      apply Hkeep.
    + destruct (reduce_returns b); injection Hstep as <-; apply Hkeep.
    + destruct (0 <? pending0).
      * injection Hstep as <-. apply Hkeep.
      * destruct W, pc0; try done. injection Hstep as <-. apply Hkeep.
    + injection Hstep as <-. apply Hkeep.
    + done.
    + done.
Qed.

Lemma queue_inv_reachable s : reachable s → queue_inv s.
Proof.
  induction 1 as [|s t s' _ IH Hstep]; [apply queue_inv_init|].
  by eapply queue_inv_step.
Qed.

Lemma reduce_run_reachable sched s s' :
  reachable s → run sched s = Some s' → reachable s'.
Proof.
  revert s. induction sched as [|t sched IH]; intros s Hr Hrun; simpl in *.
  - by injection Hrun as <-.
  - destruct (step t s) as [s1|] eqn:Hstep; simpl in Hrun; [|done].
    apply (IH s1); [|done]. by eapply reachable_step.
Qed.

(** ** Termination and progress *)

Lemma batch_inv_reachable s : reachable s → batch_inv s.
Proof.
  induction 1 as [|s t s' _ IH Hstep].
  - intros [?|[?|?]]; done.
  - unfold batch_inv in *. destruct s. simpl in *. destruct t.
    + unfold step, step_main in Hstep. simpl in Hstep.
      destruct dead0; [done|]. destruct pc0; simpl in *.
      * unfold recv in Hstep. destruct (buf reduceCh0).
        -- destruct (closed reduceCh0); [|done]. injection Hstep as <-.
           simpl. intros [?|[?|?]]; try done. apply IH. by right; right.
        -- injection Hstep as <-. simpl. by eexists.
      * destruct (pending0 <? W); [|done]. injection Hstep as <-. simpl.
        intros _. apply IH. by left.
      * injection Hstep as <-. simpl. intros _. apply IH. by right; left.
      * destruct (forallb is_exit workers0); [|done].
        injection Hstep as <-. simpl. intros [?|[?|?]]; try done.
        apply IH. by right; right.
      * done.
    + unfold step, step_merger, send in Hstep. simpl in Hstep.
      destruct dead0; [done|]. destruct merger0.
      * destruct (closed reduceCh0); [done|]. by injection Hstep as <-.
      * destruct (closed reduceCh0); [by injection Hstep as <-|].
        destruct (length (buf reduceCh0) <? Loader.reduceCh_cap); [|done].
        by injection Hstep as <-.
    + unfold step, step_worker in Hstep. simpl in Hstep.
      destruct dead0; [done|].
      destruct (workers0 !! k) as [w|] eqn:Hk; simpl in Hstep; [|done].
      assert (Hb : is_Some batch0).
      { apply IH. right; right. intros ->. done. }
      destruct w.
      * destruct batch0; simpl in Hstep; [|done]. by injection Hstep as <-.
      * destruct (reduce_returns b); by injection Hstep as <-.
      * destruct (0 <? pending0); [by injection Hstep as <-|].
        destruct W, pc0; try done. by injection Hstep as <-.
      * by injection Hstep as <-.
      * done.
      * done.
Qed.

Lemma reduce_measure_step t s s' :
  queue_inv s → step t s = Some s' → measure s' < measure s.
Proof.
  intros [_ _ _ Ho] Hstep. unfold measure. destruct s. simpl in Ho, Hstep.
  cbn [dead pc merger reduceCh batch pending workers].
  destruct t.
  - unfold step, step_main in Hstep. cbn [dead pc] in Hstep.
    destruct dead0; [done|]. destruct pc0.
    + unfold recv in Hstep. cbn [reduceCh] in Hstep.
      destruct (buf reduceCh0) eqn:Hbuf.
      * destruct (closed reduceCh0) eqn:Hcl; [|done]. injection Hstep as <-.
        cbn. rewrite ?Hbuf, ?Hcl. cbn. lia.
      * injection Hstep as <-. cbn. rewrite ?Hbuf. cbn. lia.
    + simpl in Hstep. destruct (pending0 <? W); [|done].
      injection Hstep as <-. cbn. lia.
    + injection Hstep as <-. cbn. rewrite sum_list_with_app. cbn. lia.
    + simpl in Hstep. destruct (forallb is_exit workers0); [|done].
      injection Hstep as <-. cbn. lia.
    + done.
  - unfold step, step_merger, send in Hstep. simpl in Hstep.
    destruct dead0; [done|]. destruct merger0 as [|b rest].
    + destruct (closed reduceCh0) eqn:Hcl; [done|]. injection Hstep as <-.
      cbn. rewrite ?Hcl. lia.
    + rewrite Ho in Hstep by done. rewrite Ho by done.
      destruct (length (buf reduceCh0) <? Loader.reduceCh_cap); [|done].
      injection Hstep as <-. cbn. rewrite length_app. cbn. lia.
  - unfold step, step_worker in Hstep. simpl in Hstep.
    destruct dead0; [done|].
    destruct (workers0 !! k) as [w|] eqn:Hk; simpl in Hstep; [|done].
    pose proof (λ w', MapStage.sum_insert worker_rank workers0 k w w' Hk)
      as Hs.
    destruct w.
    + destruct batch0 as [b|]; simpl in Hstep; [|done].
      injection Hstep as <-. specialize (Hs (WReducing b)). cbn in *. lia.
    + destruct (reduce_returns b); injection Hstep as <-.
      * specialize (Hs WRelease). cbn in *. lia.
      * specialize (Hs (WFailed b)). cbn in *. lia.
    + specialize (Hs WDone). destruct (0 <? pending0).
      * injection Hstep as <-. cbn in *. lia.
      * destruct W, pc0; try done. injection Hstep as <-. cbn in *. lia.
    + injection Hstep as <-. specialize (Hs WExit). cbn in *. lia.
    + done.
    + done.
Qed.

Lemma count_positive f (ws : list worker_pc) :
  0 < count f ws → ∃ k w, ws !! k = Some w ∧ f w = true.
Proof.
  unfold count. induction ws as [|w ws IH]; simpl; [lia|].
  destruct (f w) eqn:Hf.
  - intros _. by exists 0, w.
  - intros (k & w' & ? & ?)%IH. by exists (S k), w'.
Qed.

Lemma not_all_exit (ws : list worker_pc) :
  forallb is_exit ws = false → ∃ k w, ws !! k = Some w ∧ is_exit w = false.
Proof.
  induction ws as [|w ws IH]; simpl; [done|].
  destruct (is_exit w) eqn:He; simpl.
  - intros (k & w' & ? & ?)%IH. by exists (S k), w'.
  - intros _. by exists 0, w.
Qed.

(** A reducer goroutine that has not ended can move, as long as the
    process is alive. *)
Lemma worker_can_move s k w :
  token_inv s → batch_inv s → dead s = false →
  workers s !! k = Some w → is_exit w = false →
  ∃ s', step (TWorker k) s = Some s'.
Proof.
  intros [Hh _ _ Hfl] Hb Hd Hk He. unfold step, step_worker.
  rewrite Hd, Hk. simpl.
  assert (Hne : workers s ≠ []) by (intros Hnil; by rewrite Hnil in Hk).
  destruct w; try done.
  - destruct Hb as [b ->]; [by right; right|]. simpl. eauto.
  - destruct (reduce_returns b); eauto.
  - pose proof (count_member holds_token _ _ _ Hk eq_refl).
    destruct (Nat.ltb_spec 0 (pending s)); [eauto|lia].
  - eauto.
  - destruct (Hfl _ _ Hk). congruence.
Qed.

Lemma reduce_progress s :
  0 < W → reachable s → dead s = false → pc s ≠ RReturn →
  ∃ t s', step t s = Some s'.
Proof.
  intros HW Hr Hd Hpc.
  pose proof (token_inv_reachable _ Hr) as Ht.
  pose proof (batch_inv_reachable _ Hr) as Hb.
  destruct (queue_inv_reachable _ Hr) as [_ _ _ Ho].
  destruct (pc s) eqn:Hp; [| | | |done].
  - (* waiting for a batch *)
    destruct (buf (reduceCh s)) as [|b rest] eqn:Hbuf.
    + destruct (closed (reduceCh s)) eqn:Hcl.
      * exists TMain. unfold step, step_main, recv.
        rewrite Hd, Hp, Hbuf, Hcl. eauto.
      * exists TMerger. unfold step, step_merger, send.
        rewrite Hd, Hcl, Hbuf. destruct (merger s); simpl; eauto.
    + exists TMain. unfold step, step_main, recv. rewrite Hd, Hp, Hbuf. eauto.
  - (* waiting for a token *)
    destruct (Nat.ltb_spec (pending s) W) as [Hlt|Hge].
    + exists TMain. unfold step, step_main. rewrite Hd, Hp.
      apply Nat.ltb_lt in Hlt. rewrite Hlt. eauto.
    + destruct (count_positive holds_token (workers s)) as (k & w & Hk & Hw).
      { pose proof (ti_holders _ Ht) as Hh. rewrite Hp in Hh. lia. }
      exists (TWorker k). apply (worker_can_move s k w); try done.
      by destruct w.
  - exists TMain. unfold step, step_main. rewrite Hd, Hp. eauto.
  - (* reduceWg.Wait() *)
    destruct (forallb is_exit (workers s)) eqn:Hall.
    + exists TMain. unfold step, step_main. rewrite Hd, Hp, Hall. eauto.
    + apply not_all_exit in Hall as (k & w & Hk & Hw).
      exists (TWorker k). by apply (worker_can_move s k w).
Qed.

(** With a pool of at least one reducer, the stage can be run from every
    reachable state to its return, or to the panic of an aggregator. *)
Lemma reduce_can_complete s :
  0 < W → reachable s →
  ∃ s', steps s s' ∧ (dead s' = true ∨ pc s' = RReturn).
Proof.
  intros HW. remember (measure s) as n eqn:Hn. revert s Hn.
  induction n as [n IH] using lt_wf_ind. intros s -> Hr.
  destruct (dead s) eqn:Hd.
  { exists s. split; [apply steps_refl|by left]. }
  destruct (pc s) eqn:Hp.
  5: { exists s. split; [apply steps_refl|by right]. }
  all: destruct (reduce_progress s HW Hr Hd) as (t & s1 & Hstep);
         [by rewrite Hp|].
  all: destruct (IH (measure s1)
                   (reduce_measure_step _ _ _ (queue_inv_reachable _ Hr) Hstep)
                   s1 eq_refl) as (s' & Hsteps & Hend);
         [by eapply reachable_step|].
  all: exists s'; split; [by eapply steps_step|done].
Qed.

(** C2. In every state the reduce stage can reach, whatever the schedule
    and whatever the merger sends, the tokens of the limiter that are out
    are at most [W], and the calls of [reduce] that are running are at most
    the tokens that are out. *)
Theorem limiter_bounds_active_reducers s :
  reachable s →
  outstanding s ≤ W ∧ active s ≤ outstanding s ∧ active s ≤ W.
Proof.
  intros Hr. destruct (token_inv_reachable _ Hr) as [Hh Hb _ _].
  pose proof (active_le_holders (workers s)) as Ha.
  unfold outstanding, active. lia.
Qed.

(** C3, as the code has it. A reducer goroutine whose call of [reduce] has
    returned can always give its token back (the receive on [pending] does
    not block) and does so in its next step; when [reduceStage] has
    returned no token is out. A goroutine whose call of [reduce] panicked
    has not given its token back: the process is gone, with the token
    still out. *)
Theorem token_released_when_reduce_returns s :
  reachable s →
  (∀ k, dead s = false → workers s !! k = Some WRelease →
     0 < pending s ∧
     ∃ s', step (TWorker k) s = Some s' ∧ pending s' = pending s - 1 ∧
           workers s' !! k = Some WDone)
  ∧ (pc s = RReturn → pending s = 0)
  ∧ (∀ k b, workers s !! k = Some (WFailed b) →
       reduce_returns b = false ∧ dead s = true ∧ 0 < pending s ∧ stuck s).
Proof.
  intros Hr. destruct (token_inv_reachable _ Hr) as [Hh Hb Hret Hfl].
  split; [|split].
  - intros k Hlive Hk.
    pose proof (count_member holds_token _ _ _ Hk eq_refl) as Hm.
    split; [lia|]. unfold step, step_worker. rewrite Hlive, Hk. simpl.
    destruct (Nat.ltb_spec 0 (pending s)); [|lia].
    eexists. split; [done|]. simpl. split; [done|].
    apply list_lookup_insert_eq. by eapply lookup_lt_Some.
  - intros Hpc. rewrite Hh, Hpc, (all_exit_no_holder _ (Hret Hpc)). done.
  - intros k b Hk. destruct (Hfl _ _ Hk) as [Hd Hf].
    pose proof (count_member holds_token _ _ _ Hk eq_refl) as Hm.
    split; [done|]. split; [done|]. split; [lia|].
    intros [| |k']; unfold step, step_main, step_merger, step_worker;
      by rewrite Hd.
Qed.

(** ** The merger and the reducers *)

Lemma dispatch_inv_reachable s : reachable s → dispatch_inv s.
Proof.
  induction 1 as [|s t s' _ IH Hstep]; [done|].
  unfold dispatch_inv in *. destruct s. simpl in *. destruct t.
  - unfold step, step_main in Hstep. simpl in Hstep.
    destruct dead0; [done|]. destruct pc0; simpl in *.
    + unfold recv in Hstep. destruct (buf reduceCh0).
      * destruct (closed reduceCh0); [|done]. by injection Hstep as <-.
      * injection Hstep as <-. simpl. lia.
    + destruct (pending0 <? W); [|done]. by injection Hstep as <-.
    + injection Hstep as <-. simpl. rewrite length_app. simpl. lia.
    + destruct (forallb is_exit workers0); [|done]. by injection Hstep as <-.
    + done.
  - unfold step, step_merger, send in Hstep. simpl in Hstep.
    destruct dead0; [done|]. destruct merger0.
    + destruct (closed reduceCh0); [done|]. by injection Hstep as <-.
    + destruct (closed reduceCh0); [by injection Hstep as <-|].
      destruct (length (buf reduceCh0) <? Loader.reduceCh_cap); [|done].
      by injection Hstep as <-.
  - unfold step, step_worker in Hstep. simpl in Hstep.
    destruct dead0; [done|].
    destruct (workers0 !! k) as [w|] eqn:Hk; simpl in Hstep; [|done].
    pose proof (count_member holds_token workers0 k w Hk) as Hm.
    destruct w.
    + destruct batch0; simpl in Hstep; [|done]. injection Hstep as <-.
      simpl. by rewrite length_insert.
    + destruct (reduce_returns b); injection Hstep as <-; simpl;
        by rewrite length_insert.
    + destruct (0 <? pending0).
      * injection Hstep as <-. simpl. by rewrite length_insert.
      * destruct W, pc0; try done. injection Hstep as <-. simpl.
        by rewrite length_insert.
    + injection Hstep as <-. simpl. by rewrite length_insert.
    + done.
    + done.
Qed.

Lemma done_or_holder (ws : list worker_pc) :
  length ws ≤ count reduce_done ws + count holds_token ws.
Proof.
  unfold count. induction ws as [|w ws IH]; simpl; [done|].
  destruct w; simpl; lia.
Qed.

(** Measured against the calls of [reduce] that have returned, the merger
    can be further ahead than the queue is long: besides the 3 batches in
    the queue, one batch is with the loop and up to [W] are with reducer
    goroutines. *)
Lemma merger_ahead_of_finished s :
  reachable s → emitted s ≤ finished s + W + 4.
Proof.
  intros Hr.
  destruct (queue_inv_reachable _ Hr) as [Hc Hf _ _].
  destruct (token_inv_reachable _ Hr) as [Hh Hb _ _].
  pose proof (dispatch_inv_reachable _ Hr) as Hd. unfold dispatch_inv in Hd.
  pose proof (done_or_holder (workers s)) as Hl.
  unfold finished, Loader.reduceCh_cap in *. destruct (pc s); lia.
Qed.

(** C8, as the code has it. The batch queue is made with capacity 3. In
    every reachable state the batches the merger has sent and the loop of
    [reduceStage] has not yet received are the ones waiting in the queue,
    at most 3; with 3 waiting the merger's next send blocks. The reducers
    can be further behind than the loop: besides the 3 batches in the
    queue, one is with the loop and up to [W] are with reducer goroutines,
    so the merger is at most [3 + 1 + W] batches ahead of the calls of
    [reduce] that have returned. *)
Theorem merger_at_most_three_ahead s :
  reachable s →
  Loader.reduceCh_cap = 3 ∧
  emitted s = received s + length (buf (reduceCh s)) ∧
  emitted s ≤ received s + 3 ∧
  emitted s ≤ finished s + (3 + 1 + W) ∧
  (emitted s = received s + 3 → merger s ≠ [] → step TMerger s = None).
Proof.
  intros Hr. pose proof (merger_ahead_of_finished s Hr) as Hfin.
  destruct (queue_inv_reachable _ Hr) as [Hc Hf _ Ho].
  unfold Loader.reduceCh_cap in *.
  split; [done|]. split; [done|]. split; [lia|]. split; [lia|].
  intros He Hm. unfold step, step_merger, send.
  destruct (dead s); [done|].
  destruct (merger s) as [|b rest]; [done|].
  rewrite Ho by done.
  destruct (Nat.ltb_spec (length (buf (reduceCh s))) Loader.reduceCh_cap)
    as [Hlt|]; [|done].
  unfold Loader.reduceCh_cap in Hlt. lia.
Qed.

(** ** What ends the process, and what the loop leaves behind *)

(** Case analysis on one step of a goroutine. *)
Ltac reduce_cases H :=
  unfold step, step_main, step_merger, step_worker, send, recv in H;
  repeat (simplify_option_eq; case_match);
  simplify_option_eq;
  repeat match goal with
         | H : (?o ≫= _) = Some _ |- _ =>
             destruct o eqn:?; simpl in H; simplify_eq
         end.

(** The process is gone only when a call of [reduce] has panicked. *)
Lemma dead_has_failed s :
  reachable s → dead s = true →
  ∃ k b, workers s !! k = Some (WFailed b) ∧ reduce_returns b = false.
Proof.
  induction 1 as [|s t s' Hr IH Hstep]; [done|].
  destruct (queue_inv_reachable _ Hr) as [_ _ _ Ho].
  destruct s. simpl in *. clear IH Hr.
  destruct t; reduce_cases Hstep; simpl in *; try done.
  - by specialize (Ho ltac:(done)).
  - intros _.
    match goal with
    | H : _ !! ?k = Some (WReducing ?b) |- _ =>
        exists k, b; split; [|done];
        apply list_lookup_insert_eq; by eapply lookup_lt_Some
    end.
Qed.


Lemma reduce_steps_reachable s s' : reachable s → steps s s' → reachable s'.
Proof.
  intros Hr Hs. induction Hs as [|s t s1 s2 Hstep _ IH]; [done|].
  apply IH. by eapply reachable_step.
Qed.

Lemma reduce_run_bounded sched s s' :
  reachable s → run sched s = Some s' → length sched ≤ measure s.
Proof.
  revert s. induction sched as [|t sched IH]; intros s Hr Hrun; simpl in *.
  - lia.
  - destruct (step t s) as [s1|] eqn:Hstep; simpl in Hrun; [|done].
    pose proof (reduce_measure_step _ _ _ (queue_inv_reachable _ Hr) Hstep).
    assert (reachable s1) by (by eapply reachable_step).
    specialize (IH s1 ltac:(done) Hrun). lia.
Qed.

(** X16. With a pool of at least one reducer and an aggregator that
    returns on every batch, the reduce stage never loses the process and
    never gets stuck: from every reachable state it can be run on to the
    return of [reduceStage], and no schedule is longer than the measure of
    the work left. *)
Theorem reduce_stage_returns :
  0 < W → (∀ b, reduce_returns b = true) →
  ∀ s, reachable s →
    dead s = false ∧
    (∃ s', steps s s' ∧ pc s' = RReturn ∧ dead s' = false) ∧
    (∀ sched s', run sched s = Some s' → length sched ≤ measure s).
Proof.
  intros HW Hret.
  assert (Hlive : ∀ s, reachable s → dead s = false).
  { intros s Hr. destruct (dead s) eqn:Hd; [|done].
    destruct (dead_has_failed s Hr Hd) as (k & b & _ & Hb).
    rewrite Hret in Hb. done. }
  intros s Hr. split; [by apply Hlive|]. split.
  - destruct (reduce_can_complete s HW Hr) as (s' & Hs & Hend).
    pose proof (Hlive s' (reduce_steps_reachable _ _ Hr Hs)) as Hd.
    exists s'. split; [done|]. split; [|done].
    destruct Hend as [Hdead|?]; [congruence|done].
  - intros sched s' Hrun. by eapply reduce_run_bounded.
Qed.

(** X17. With a pool of width 0 the limiter is an unbuffered channel that
    nobody receives from: as soon as the merger has a batch to send, the
    loop blocks for good on its first token. In no reachable state has a
    reducer goroutine been started, and [reduceStage] never returns. *)
Theorem zero_width_never_dispatches :
  W = 0 → batches ≠ [] →
  ∀ s, reachable s →
    workers s = [] ∧ dead s = false ∧
    (pc s = RRecv ∧ received s = 0 ∨
     pc s = RAcquire ∧ step TMain s = None).
Proof.
  intros HW Hne.
  assert (Hinv : ∀ s, reachable s →
            workers s = [] ∧ dead s = false ∧
            (pc s = RRecv ∧ received s = 0 ∨ pc s = RAcquire)).
  { induction 1 as [|s t s' Hr IH Hstep]; [by auto|].
    destruct (queue_inv_reachable _ Hr) as [_ Hf Ht Ho].
    destruct IH as (Hw & Hd & Hpc). destruct s. simpl in *. subst.
    destruct t; reduce_cases Hstep; simpl in *;
      try (by destruct Hpc as [[? ?]|?]); try (by auto).
    - (* the loop would end: the queue is closed and empty *)
      exfalso. destruct Hpc as [[_ ->]|?]; [|done].
      destruct merger0 as [|b rest].
      + destruct batches; [done|]. simpl in *. lia.
      + by specialize (Ho ltac:(done)).
    - (* the loop would take a token *)
      exfalso. match goal with H : (_ <? W) = true |- _ =>
                 rewrite HW in H; done end. }
  intros s Hr. destruct (Hinv s Hr) as (Hw & Hd & Hpc).
  split; [done|]. split; [done|].
  destruct Hpc as [?|Hpc]; [by left|right]. split; [done|].
  unfold step, step_main. rewrite Hd, Hpc, HW. done.
Qed.


End Stage.

(** X19. The loop variable [batch] is one variable, shared by the
    goroutines the loop starts (the semantics of [for ... range] before
    Go 1.22), and a goroutine reads it only when it calls [reduce]. With
    at least two batches and a pool of width two or more there is a
    schedule in which the loop receives the second batch before the first
    goroutine has made its call: both goroutines then reduce the second
    batch, and the first one is reduced by nobody. *)
Theorem loop_variable_shared_by_reducers
    (Batch : Type) (reduce_returns : Batch → bool) (W : nat)
    (b0 b1 : Batch) (rest : list Batch) :
  2 ≤ W →
  ∃ sched s,
    run Batch reduce_returns W sched (init Batch (b0 :: b1 :: rest)) = Some s ∧
    received Batch s = 2 ∧
    workers Batch s = [WReducing Batch b1; WReducing Batch b1].
Proof.
  intros HW.
  exists [ TMerger; TMerger; TMain; TMain; TMain; TMain; TWorker 0;
           TMain; TMain; TWorker 1 ].
  destruct W as [|[|w]]; [lia|lia|].
  eexists. split; [vm_compute; reflexivity|]. split; reflexivity.
Qed.

(** ** Runs of the stage *)

(** Ten batches ready at once, a pool of width 2, an aggregator that
    returns. *)
Definition ten : list nat := seq 0 10.
Definition always_returns (b : nat) : bool := true.
Definition ten_init : state nat := init nat ten.

(** Two reducers are inside [reduce], the loop holds the third batch and
    is blocked on the limiter, the merger has refilled the queue. *)
Definition busy_sched : list thread :=
  [ TMerger; TMerger; TMerger;
    TMain; TMain; TMain; TWorker 0;
    TMain; TMain; TMain; TWorker 1;
    TMain; TMerger; TMerger; TMerger ].
Definition busy : state nat :=
  default ten_init (run nat always_returns 2 busy_sched ten_init).

Lemma busy_run :
  run nat always_returns 2 busy_sched ten_init = Some busy
  ∧ workers nat busy = [WReducing nat 0; WReducing nat 1]
  ∧ active nat busy = 2 ∧ outstanding nat busy = 2
  ∧ pc nat busy = RAcquire
  ∧ step nat always_returns 2 TMain busy = None
  ∧ buf (reduceCh nat busy) = [3; 4; 5]
  ∧ emitted nat busy = 6 ∧ received nat busy = 3
  ∧ step nat always_returns 2 TMerger busy = None.
Proof. vm_compute. done. Qed.

(** Each batch in turn: sent, received, dispatched and reduced. *)
Definition serial_sched : list thread :=
  flat_map (λ k, [ TMerger; TMain; TMain; TMain;
                   TWorker k; TWorker k; TWorker k; TWorker k ]) (seq 0 10)
  ++ [ TMerger; TMain; TMain ].
Definition serial_end : state nat :=
  default ten_init (run nat always_returns 2 serial_sched ten_init).

Lemma serial_run :
  run nat always_returns 2 serial_sched ten_init = Some serial_end
  ∧ pc nat serial_end = RReturn
  ∧ pending nat serial_end = 0
  ∧ workers nat serial_end = replicate 10 (WExit nat).
Proof. vm_compute. done. Qed.

(** Against C3 as stated: an aggregator that panics on its batch, pool of
    width 1. The goroutine has left [reduce] without reaching [<-pending]:
    the process is gone with the token still out. *)
Definition never_returns (b : nat) : bool := false.
Definition failing_sched : list thread :=
  [ TMerger; TMain; TMain; TMain; TWorker 0; TWorker 0 ].
Definition failing_init : state nat := init nat [7].
Definition failed : state nat :=
  default failing_init (run nat never_returns 1 failing_sched failing_init).

(** The run: the worker ends in [WFailed], one token is still out, and no
    goroutine moves any more. *)
Lemma reduce_panic_keeps_token :
  run nat never_returns 1 failing_sched failing_init = Some failed
  ∧ workers nat failed = [WFailed nat 7]
  ∧ holds_token nat (WFailed nat 7) = true
  ∧ pending nat failed = 1
  ∧ dead nat failed = true
  ∧ step nat never_returns 1 TMain failed = None
  ∧ step nat never_returns 1 TMerger failed = None
  ∧ step nat never_returns 1 (TWorker 0) failed = None.
Proof. vm_compute. done. Qed.

(** The loop variable [batch] is shared by the goroutines the loop starts:
    a reducer that calls [reduce] after the loop has received the next
    batch reduces that one. Here batch 1 is reduced twice and batch 0
    never. *)
Definition racing_sched : list thread :=
  [ TMerger; TMerger; TMain; TMain; TMain; TMain; TWorker 0;
    TMain; TMain; TWorker 1 ].
Definition racing : state nat :=
  default (init nat [0; 1])
    (run nat always_returns 2 racing_sched (init nat [0; 1])).

Lemma loop_variable_is_shared :
  run nat always_returns 2 racing_sched (init nat [0; 1]) = Some racing
  ∧ workers nat racing = [WReducing nat 1; WReducing nat 1].
Proof. vm_compute. done. Qed.

(** Against C8 as stated: a pool of width 2 whose goroutines are slow to
    start. The loop has dispatched two batches and holds the third, no call
    of [reduce] has begun, and the merger has refilled the queue: it is six
    batches ahead of every reducer, and only now does its send block. *)
Definition lagging_sched : list thread :=
  [ TMerger; TMerger; TMerger;
    TMain; TMain; TMain; TMain; TMain; TMain; TMain;
    TMerger; TMerger; TMerger ].
Definition lagging : state nat :=
  default ten_init (run nat always_returns 2 lagging_sched ten_init).

Lemma merger_six_ahead_of_reducers :
  run nat always_returns 2 lagging_sched ten_init = Some lagging
  ∧ workers nat lagging = [WStart nat; WStart nat]
  ∧ finished nat lagging = 0
  ∧ emitted nat lagging = 6
  ∧ ¬ (emitted nat lagging ≤ finished nat lagging + 3)
  ∧ step nat always_returns 2 TMerger lagging = None.
Proof.
  split; [vm_compute; reflexivity|]. split; [vm_compute; reflexivity|].
  split; [vm_compute; reflexivity|]. split; [vm_compute; reflexivity|].
  split; [|vm_compute; reflexivity].
  change (emitted nat lagging) with 6. change (finished nat lagging) with 0.
  lia.
Qed.

(** In the state [busy] both bounds are met: 3 batches are waiting in the
    queue, and 6 have been sent with no call of [reduce] returned yet. *)
Lemma busy_bounds_met :
  emitted nat busy = received nat busy + 3
  ∧ emitted nat busy = finished nat busy + 2 + 4.
Proof. vm_compute. done. Qed.

Lemma limiter_bounds_active_reducers_witness :
  outstanding nat busy ≤ 2 ∧ active nat busy ≤ outstanding nat busy
  ∧ active nat busy ≤ 2.
Proof.
  apply (limiter_bounds_active_reducers nat ten always_returns 2 busy).
  apply (reduce_run_reachable nat ten always_returns 2 busy_sched ten_init);
    [apply reachable_init|].
  vm_compute. reflexivity.
Defined.

Lemma merger_at_most_three_ahead_witness :
  emitted nat busy ≤ received nat busy + 3
  ∧ emitted nat busy ≤ finished nat busy + (3 + 1 + 2)
  ∧ step nat always_returns 2 TMerger busy = None.
Proof.
  destruct (merger_at_most_three_ahead nat ten always_returns 2 busy)
    as (_ & _ & Hle & Hfin & Hblock).
  - apply (reduce_run_reachable nat ten always_returns 2 busy_sched ten_init);
      [apply reachable_init|].
    vm_compute. reflexivity.
  - split; [exact Hle|]. split; [exact Hfin|]. apply Hblock.
    + vm_compute. reflexivity.
    + vm_compute. discriminate.
Defined.

Lemma token_released_when_reduce_returns_witness :
  pending nat serial_end = 0
  ∧ (never_returns 7 = false ∧ dead nat failed = true ∧
     0 < pending nat failed ∧ stuck nat never_returns 1 failed).
Proof.
  split.
  - apply (token_released_when_reduce_returns nat ten always_returns 2
             serial_end).
    + apply (reduce_run_reachable nat ten always_returns 2 serial_sched ten_init);
        [apply reachable_init|].
      vm_compute. reflexivity.
    + vm_compute. reflexivity.
  - apply (token_released_when_reduce_returns nat [7] never_returns 1
             failed) with (k := 0).
    + apply (reduce_run_reachable nat [7] never_returns 1 failing_sched
               failing_init); [apply reachable_init|].
      vm_compute. reflexivity.
    + vm_compute. reflexivity.
Defined.

(** A pool of width 0: the merger sends its batch, the loop receives it
    and blocks on the limiter. *)
Definition blocked : state nat :=
  default failing_init
    (run nat always_returns 0 [TMerger; TMain] failing_init).

Lemma reduce_stage_returns_witness :
  dead nat busy = false
  ∧ ∃ s', steps nat always_returns 2 busy s' ∧ pc nat s' = RReturn
          ∧ dead nat s' = false.
Proof.
  destruct (reduce_stage_returns nat ten always_returns 2 ltac:(lia)
              (λ b, eq_refl) busy) as (Hd & Hs & _).
  - apply (reduce_run_reachable nat ten always_returns 2 busy_sched ten_init);
      [apply reachable_init|].
    vm_compute. reflexivity.
  - split; [exact Hd|exact Hs].
Defined.

Lemma zero_width_never_dispatches_witness :
  workers nat blocked = []
  ∧ pc nat blocked = RAcquire
  ∧ step nat always_returns 0 TMain blocked = None.
Proof.
  destruct (zero_width_never_dispatches nat [7] always_returns 0 eq_refl
              ltac:(discriminate) blocked) as (Hw & _ & [[Hpc _]|[Hpc Hs]]).
  - apply (reduce_run_reachable nat [7] always_returns 0 [TMerger; TMain]
             failing_init); [apply reachable_init|].
    vm_compute. reflexivity.
  - vm_compute in Hpc. discriminate Hpc.
  - split; [exact Hw|]. split; [exact Hpc|exact Hs].
Defined.


Lemma loop_variable_shared_by_reducers_witness :
  ∃ sched s,
    run nat always_returns 2 sched (init nat [0; 1]) = Some s ∧
    received nat s = 2 ∧
    workers nat s = [WReducing nat 1; WReducing nat 1].
Proof.
  apply (loop_variable_shared_by_reducers nat always_returns 2 0 1 []). lia.
Defined.

End ReduceStage.

(* ===================================================================== *)
(** * Clean-up of the temporary directory *)
(* ===================================================================== *)

Module Cleanup.

(** The file system: the paths that exist, files and directories alike.
    Paths are cleaned, with [/] as separator. *)
Definition files : Type := list string.

Definition slash : Ascii.ascii := Ascii.ascii_of_nat 47.

(** The part of a path before its last separator, if it has one. *)
Fixpoint before_last_slash (s : string) : option string :=
  match s with
  | EmptyString => None
  | String c rest =>
      match before_last_slash rest with
      | Some d => Some (String c d)
      | None => if Ascii.eqb c slash then Some EmptyString else None
      end
  end.

(** [filepath.Dir] on a cleaned path. *)
Definition filepath_Dir (p : string) : string :=
  match before_last_slash p with
  | Some EmptyString => "/"
  | Some d => d
  | None => "."
  end.

(** [p] is [dir] or lies below it. *)
Definition under (dir p : string) : bool :=
  String.eqb p dir || String.prefix (dir +:+ "/") p.

Section Removal.

(** Whether the operating system lets an entry be removed. *)
Variable removable : string → bool.

(** [os.RemoveAll(dir)]: removes [dir] and everything below it; [None]
    when it returns an error. A path that does not exist is no error. *)
Definition os_RemoveAll (dir : string) (fs : files) : option files :=
  if forallb (λ p, implb (under dir p) (removable p)) fs
  then Some (filter (λ p, under dir p = false) fs)
  else None.

(** [cleanup], on the run list the map stage left in [ld.mapOutput]. *)
Definition cleanup (mapOutput : list string) (fs : files)
    : Loader.outcome files :=
  if 0 <? length mapOutput then
    match mapOutput !! 0 with
    | Some first =>
        let dir := filepath_Dir first in
        match os_RemoveAll dir fs with
        | Some fs' => Loader.Ok fs'
        | None => Loader.Fatal ""
        end
    | None => Loader.Panic "index out of range"
    end
  else Loader.Ok fs.

(** The file system once the map stage is over: [ioutil.TempDir] has made
    [tmp] and the spill writer has made its run files. *)
Definition after_map (tmp : string) (runs : list string) (fs : files) : files :=
  runs ++ tmp :: fs.

Lemma os_RemoveAll_spec dir fs fs' :
  os_RemoveAll dir fs = Some fs' →
  ∀ p, p ∈ fs' ↔ p ∈ fs ∧ under dir p = false.
Proof.
  unfold os_RemoveAll. destruct (forallb _ fs); [|done]. intros [= <-] p.
  by rewrite list_elem_of_filter, (comm and).
Qed.



Lemma forallb_false_elem {A} (f : A → bool) (l : list A) :
  forallb f l = false → ∃ x, x ∈ l ∧ f x = false.
Proof.
  induction l as [|x l IH]; simpl; [done|].
  destruct (f x) eqn:Hx; simpl.
  - intros (y & ? & ?)%IH. exists y. split; [by apply list_elem_of_further|done].
  - intros _. exists x. split; [apply list_elem_of_here|done].
Qed.

(** Removing a tree nothing of which exists changes nothing. *)
Lemma os_RemoveAll_outside dir l :
  (∀ p, p ∈ l → under dir p = false) → os_RemoveAll dir l = Some l.
Proof.
  intros H. unfold os_RemoveAll.
  assert (forallb (λ p, implb (under dir p) (removable p)) l = true) as ->.
  { apply forallb_forall. intros p Hp%list_elem_of_In. by rewrite (H p Hp). }
  f_equal. unfold files. induction l as [|x l IH]; [done|].
  rewrite filter_cons_True by (apply H, list_elem_of_here).
  f_equal. apply IH. intros p Hp. by apply H, list_elem_of_further.
Qed.

(** X20. [cleanup] never indexes the run list out of range: the guard
    [len(ld.mapOutput) > 0] stands before [ld.mapOutput[0]]. It ends the
    process only when the run list has a first run and some existing entry
    of that run's directory tree cannot be removed. Only the first run
    counts: the other runs of the list make no difference. And it can be
    run again: a second clean-up succeeds and changes nothing. *)
Theorem cleanup_guarded_and_repeatable (mapOutput : list string) (fs : files) :
  (∀ msg, cleanup mapOutput fs ≠ Loader.Panic msg) ∧
  (∀ msg, cleanup mapOutput fs = Loader.Fatal msg →
     ∃ first p, mapOutput !! 0 = Some first ∧ p ∈ fs ∧
                under (filepath_Dir first) p = true ∧ removable p = false) ∧
  (∀ first rest, mapOutput = first :: rest →
     cleanup mapOutput fs = cleanup [first] fs) ∧
  (∀ fs', cleanup mapOutput fs = Loader.Ok fs' →
     cleanup mapOutput fs' = Loader.Ok fs').
Proof.
  unfold cleanup. destruct mapOutput as [|first rest]; simpl.
  { split; [done|]. split; [done|]. split; [done|]. by intros fs' [= <-]. }
  destruct (os_RemoveAll (filepath_Dir first) fs) as [fs1|] eqn:Hrm.
  - split; [done|]. split; [done|]. split.
    + intros ? ? [= <- <-]. by rewrite Hrm.
    + intros fs' [= <-].
      rewrite (os_RemoveAll_outside (filepath_Dir first) fs1); [done|].
      intros p Hp. by apply (os_RemoveAll_spec _ _ _ Hrm) in Hp as [_ ?].
  - split; [done|]. split; [|split; [|done]].
    + intros _ _. unfold os_RemoveAll in Hrm.
      destruct (forallb _ fs) eqn:Hall; [done|].
      apply forallb_false_elem in Hall as (p & Hp & Himp).
      exists first, p. split; [done|]. split; [done|].
      destruct (under (filepath_Dir first) p), (removable p); done.
    + intros ? ? [= <- <-]. by rewrite Hrm.
Qed.

End Removal.

(** Two runs in the temporary directory: the tree goes, the rest stays. *)
Definition demo_tmp : string := "tmp/bulkloader_tmp_posting_042".
Definition demo_runs : list string :=
  [ "tmp/bulkloader_tmp_posting_042/000000";
    "tmp/bulkloader_tmp_posting_042/000001" ].
Definition demo_fs : files := [ "tmp"; "data.rdf"; "tmp/bulkloader_tmp_posting_0420" ].

Lemma cleanup_demo :
  cleanup (λ _, true) demo_runs (after_map demo_tmp demo_runs demo_fs)
  = Loader.Ok demo_fs
  ∧ cleanup (λ _, true) [] (after_map demo_tmp [] demo_fs)
    = Loader.Ok (demo_tmp :: demo_fs)
  ∧ filepath_Dir "tmp/bulkloader_tmp_posting_042/000000" = demo_tmp.
Proof. vm_compute. done. Qed.


(** An entry of the tree that cannot be removed ends the process; a
    clean-up that went through can be run again. *)
Lemma cleanup_guarded_and_repeatable_witness :
  (∃ first p, demo_runs !! 0 = Some first
              ∧ p ∈ after_map demo_tmp demo_runs demo_fs
              ∧ under (filepath_Dir first) p = true)
  ∧ cleanup (λ _, true) demo_runs demo_fs = Loader.Ok demo_fs.
Proof.
  split.
  - destruct (cleanup_guarded_and_repeatable (λ _, false) demo_runs
                (after_map demo_tmp demo_runs demo_fs)) as (_ & H & _).
    destruct (H "" eq_refl) as (first & p & H1 & H2 & H3 & _).
    exists first, p. split; [exact H1|]. split; [exact H2|exact H3].
  - apply (cleanup_guarded_and_repeatable (λ _, true) demo_runs
             (after_map demo_tmp demo_runs demo_fs)).
    reflexivity.
Defined.

End Cleanup.

(* ===================================================================== *)
(** * The loader: map stage, reduce stage, clean-up *)
(* ===================================================================== *)

Module Orchestrator.

(** Who moves: a goroutine of the map stage, a goroutine of the reduce
    stage, or the main goroutine going from one stage to the next. *)
Inductive actor :=
  | AMap (t : MapStage.thread)
  | AReduce (t : ReduceStage.thread)
  | ALoader.

Section Pipeline.

Variable Posting : Type.
Variable parse : string → list Posting.
Variable runsOf : list Posting → list string.
Variable W : nat.
Variable lines : list string.
Variable scanErr : bool.

(** The batches the merger makes of the run files, and the aggregator. *)
Variable Batch : Type.
Variable shuffle : list string → list Batch.
Variable reduce_returns : Batch → bool.

(** The file system: what may be removed, the directory [ioutil.TempDir]
    made, and the paths that were there before. *)
Variable removable : string → bool.
Variable tmp : string.
Variable fs0 : Cleanup.files.

Inductive phase :=
  | Mapping (m : MapStage.state Posting)
  | Reducing (m : MapStage.state Posting) (r : ReduceStage.state Batch)
  | CleaningUp (m : MapStage.state Posting) (r : ReduceStage.state Batch)
  | Finished (m : MapStage.state Posting) (r : ReduceStage.state Batch)
             (fs : Loader.outcome Cleanup.files).

(** Modelled from the spec: the function that calls [mapStage],
    [reduceStage] and [cleanup] is not part of this file. Following section
    4.6 the phases are strictly sequential: the reduce phase is entered
    when [mapStage] has returned, on the run list it left in
    [ld.mapOutput]; the clean-up runs when [reduceStage] has returned. *)
Definition step (a : actor) (p : phase) : option phase :=
  match p, a with
  | Mapping m, AMap t =>
      Mapping <$> MapStage.step Posting parse runsOf scanErr t m
  | Mapping m, ALoader =>
      match MapStage.pc Posting m with
      | MapStage.PReturn =>
          Some (Reducing m
                  (ReduceStage.init Batch
                     (shuffle (MapStage.mapOutput Posting m))))
      | _ => None
      end
  | Reducing m r, AReduce t =>
      Reducing m <$> ReduceStage.step Batch reduce_returns W t r
  | Reducing m r, ALoader =>
      match ReduceStage.pc Batch r, ReduceStage.dead Batch r with
      | ReduceStage.RReturn, false => Some (CleaningUp m r)
      | _, _ => None
      end
  | CleaningUp m r, ALoader =>
      Some (Finished m r
              (Cleanup.cleanup removable (MapStage.mapOutput Posting m)
                 (Cleanup.after_map tmp (MapStage.mapOutput Posting m) fs0)))
  | _, _ => None
  end.

Fixpoint run (sched : list actor) (p : phase) : option phase :=
  match sched with
  | [] => Some p
  | a :: rest => p' ← step a p; run rest p'
  end.

Definition start : phase := Mapping (MapStage.init Posting W lines).

Inductive reachable : phase → Prop :=
  | reachable_start : reachable start
  | reachable_step p a p' : reachable p → step a p = Some p' → reachable p'.

(** The state of the map stage a phase carries. *)
Definition map_state (p : phase) : MapStage.state Posting :=
  match p with
  | Mapping m | Reducing m _ | CleaningUp m _ | Finished m _ _ => m
  end.

(** The reduce phase has been entered. *)
Definition reduce_entered (p : phase) : bool :=
  match p with Mapping _ => false | _ => true end.

Lemma reachable_map_state p :
  reachable p →
  MapStage.reachable Posting parse runsOf W lines scanErr (map_state p) ∧
  (reduce_entered p = true →
   MapStage.pc Posting (map_state p) = MapStage.PReturn).
Proof.
  induction 1 as [|p a p' _ [IHr IHp] Hstep].
  - split; [apply MapStage.reachable_init|done].
  - destruct p as [m|m r|m r|m r fs], a as [t|t|]; simpl in *; try done.
    + destruct (MapStage.step _ _ _ _ t m) as [m'|] eqn:Hm; [|done].
      injection Hstep as <-. simpl. split; [|done].
      by eapply MapStage.reachable_step.
    + destruct (MapStage.pc Posting m) eqn:Hpc; try done.
      injection Hstep as <-. by split.
    + destruct (ReduceStage.step _ _ _ t r) as [r'|]; [|done].
      injection Hstep as <-. by split.
    + destruct (ReduceStage.pc Batch r), (ReduceStage.dead Batch r);
        try done.
      injection Hstep as <-. by split.
    + injection Hstep as <-. by split.
Qed.

(** C4. In every phase the loader can reach, the map stage it carries has
    shut down in order: input queue closed only with the source exhausted,
    output queue closed only with every mapper joined, spill writer joined
    (its run list captured) only with the output queue closed; and the
    reduce phase has been entered only with [mapStage] returned, that is
    with the spill writer joined. *)
Theorem map_phase_shutdown_order p :
  reachable p →
  MapStage.shutdown_order Posting runsOf scanErr (map_state p) ∧
  (reduce_entered p = true →
     MapStage.pc Posting (map_state p) = MapStage.PReturn ∧
     MapStage.writer_done Posting (map_state p) = true ∧
     Channel.closed (MapStage.postingsCh Posting (map_state p)) = true ∧
     MapStage.mapOutput Posting (map_state p)
     = runsOf (MapStage.written Posting (map_state p))).
Proof.
  intros Hr. destruct (reachable_map_state p Hr) as [Hm Hpc].
  pose proof (MapStage.reachable_shutdown_order _ _ _ _ _ _ _ Hm) as Hord.
  split; [done|]. intros He. specialize (Hpc He).
  destruct Hord as (_ & _ & _ & Hret).
  destruct (Hret Hpc) as (? & ? & ?). done.
Qed.

End Pipeline.

(** ** The whole pipeline on the two demo lines *)

Definition demo_shuffle (runs : list string) : list nat :=
  match runs with [] => [] | _ => [0; 1] end.

Definition demo_pipeline : list actor :=
  (AMap <$> MapStage.demo_sched)
  ++ [ALoader]
  ++ (AReduce <$>
        flat_map (λ k, [ ReduceStage.TMerger; ReduceStage.TMain;
                         ReduceStage.TMain; ReduceStage.TMain;
                         ReduceStage.TWorker k; ReduceStage.TWorker k;
                         ReduceStage.TWorker k; ReduceStage.TWorker k ])
          (seq 0 2)
        ++ [ ReduceStage.TMerger; ReduceStage.TMain; ReduceStage.TMain ])
  ++ [ALoader; ALoader].

Definition demo_start : phase string nat :=
  start string 2 ["<a> <name> <b> ."; "<b> <name> <c> ."] nat.

Definition demo_end : phase string nat :=
  default demo_start
    (run string MapStage.demo_parse MapStage.demo_runsOf 2 false nat
       demo_shuffle ReduceStage.always_returns (λ _, true)
       Cleanup.demo_tmp Cleanup.demo_fs demo_pipeline demo_start).

Lemma demo_pipeline_run :
  run string MapStage.demo_parse MapStage.demo_runsOf 2 false nat
    demo_shuffle ReduceStage.always_returns (λ _, true)
    Cleanup.demo_tmp Cleanup.demo_fs demo_pipeline demo_start
  = Some demo_end
  ∧ ∃ m r, demo_end = Finished string nat m r (Loader.Ok Cleanup.demo_fs).
Proof. split; [vm_compute; reflexivity|]. vm_compute. eauto. Qed.

Lemma pipeline_run_reachable {Posting Batch} parse runsOf W lines scanErr shuffle
    reduce_returns removable tmp fs0 sched (p p' : phase Posting Batch) :
  reachable Posting parse runsOf W lines scanErr Batch shuffle reduce_returns
    removable tmp fs0 p →
  run Posting parse runsOf W scanErr Batch shuffle reduce_returns
    removable tmp fs0 sched p = Some p' →
  reachable Posting parse runsOf W lines scanErr Batch shuffle reduce_returns
    removable tmp fs0 p'.
Proof.
  revert p. induction sched as [|a sched IH]; intros p Hr Hrun; simpl in *.
  - by injection Hrun as <-.
  - destruct (step _ _ _ _ _ _ _ _ _ _ _ a p) as [p1|] eqn:Hstep;
      simpl in Hrun; [|done].
    apply (IH p1); [|done]. by eapply reachable_step.
Qed.

Lemma map_phase_shutdown_order_witness :
  MapStage.pc string (map_state string nat demo_end) = MapStage.PReturn
  ∧ MapStage.writer_done string (map_state string nat demo_end) = true
  ∧ Channel.closed (MapStage.postingsCh string (map_state string nat demo_end))
    = true.
Proof.
  destruct (map_phase_shutdown_order string MapStage.demo_parse
              MapStage.demo_runsOf 2
              ["<a> <name> <b> ."; "<b> <name> <c> ."] false nat
              demo_shuffle ReduceStage.always_returns (λ _, true)
              Cleanup.demo_tmp Cleanup.demo_fs demo_end) as [_ H].
  - apply (pipeline_run_reachable MapStage.demo_parse MapStage.demo_runsOf 2 _ false
             demo_shuffle ReduceStage.always_returns (λ _, true)
             Cleanup.demo_tmp Cleanup.demo_fs demo_pipeline demo_start);
      [apply reachable_start|].
    vm_compute. reflexivity.
  - destruct (H eq_refl) as (H1 & H2 & H3 & _). by repeat split.
Defined.

End Orchestrator.
